(** * schelm: splitting a rendered chart stream into a tree of files

    A shallow embedding of [main.go] and a verification of its
    specification.  Go strings and byte slices are lists of 8-bit
    characters, Go [int]s are [Z], the file system is a finite map from
    cleaned path names to nodes, and the effects of the program (the
    standard input, the log, the file system) are passed explicitly. *)

From Stdlib Require Import ZArith Ascii String.
From stdpp Require Import gmap strings list fin_maps.

Local Open Scope Z_scope.

(** ** Go strings *)

(** A Go [string] and a Go [[]byte] are both a sequence of bytes; the
    conversions [string(b)] and [[]byte(s)] are the identity here. *)
Abbreviation gostring := (list ascii).

(** A literal without escapes. *)
Definition lit (s : string) : gostring := list_ascii_of_string s.

(** The newline character, ["\n"] in Go. *)
Definition LF : ascii := ascii_of_nat 10.

(** [len(s)] *)
Definition len (s : gostring) : Z := Z.of_nat (length s).

(** [s[i:j]] and [s[i:]] for indices in range. *)
Definition slice (s : gostring) (i j : Z) : gostring :=
  take (Z.to_nat (j - i)) (drop (Z.to_nat i) s).
Definition slice_from (s : gostring) (i : Z) : gostring :=
  drop (Z.to_nat i) s.

Fixpoint has_prefix (s prefix : gostring) {struct prefix} : bool :=
  match prefix, s with
  | [], _ => true
  | _ :: _, [] => false
  | p :: prefix', c :: s' => bool_decide (p = c) && has_prefix s' prefix'
  end.

(** The offset of the first occurrence of [sep] in [s], if any. *)
Fixpoint index_of (s sep : gostring) : option nat :=
  if has_prefix s sep then Some 0%nat
  else match s with
       | [] => None
       | _ :: s' => S <$> index_of s' sep
       end.

(** [bytes.Index] and [strings.Index]: the first occurrence or -1. *)
Definition Index (s sep : gostring) : Z :=
  match index_of s sep with
  | Some i => Z.of_nat i
  | None => -1
  end.

(** [strings.HasSuffix] *)
Definition HasSuffix (s suffix : gostring) : bool :=
  (len suffix <=? len s) &&
  bool_decide (slice_from s (len s - len suffix) = suffix).

(** ** Constants of the program *)

Definition yamlSeparator : gostring :=
  lit "---" ++ LF :: lit "# Source: ".
Definition bufferSize : Z := 1048576.
(** [bufio.MaxScanTokenSize] *)
Definition MaxScanTokenSize : Z := 65536.

(** ** The tokenizer and the splitter *)

Section Errors.

(** Error values.  [Errorf msg e] is [fmt.Errorf("<msg>: %w", e)]. *)
Inductive errno := ENOENT | ENOTDIR | EISDIR | EEXIST.

Inductive error :=
| EOF
| ErrTooLong
| ErrNegativeAdvance
| ErrAdvanceTooFar
| ErrNoProgress
| PathError (op : string) (path : gostring) (e : errno)
| Errorf (msg : gostring) (cause : error).

End Errors.

(** [scanYamlSpecs]: the split function handed to the scanner.  A [nil]
    token is [None]; an empty token that is not [nil] is [Some []]. *)
Definition scanYamlSpecs (data : gostring) (atEOF : bool)
  : Z * option gostring * option error :=
  if atEOF && (len data =? 0) then (0, None, None)
  else
    let separatorBytes := yamlSeparator in
    let i := Index data separatorBytes in
    if 0 <=? i then (i + len separatorBytes, Some (slice data 0 i), None)
    else if atEOF then (len data, Some data, None)
    else (0, None, None).

(** [splitSpec] *)
Definition splitSpec (token : gostring) : gostring * gostring :=
  let i := Index token [LF] in
  if 0 <=? i then (slice token 0 i, slice_from token (i + 1))
  else (token, []).

(** ** Path names: Go's [path] package *)

(** The elements of a path name: the pieces between its slashes. *)
Fixpoint elements_of (s : gostring) : list gostring :=
  match s with
  | [] => [[]]
  | c :: s' =>
    if bool_decide (c = "/"%char) then [] :: elements_of s'
    else match elements_of s' with
         | e :: es => (c :: e) :: es
         | [] => [[c]]
         end
  end.

Fixpoint join_elements (es : list gostring) : gostring :=
  match es with
  | [] => []
  | [e] => e
  | e :: es' => e ++ "/"%char :: join_elements es'
  end.

(** One element of the input seen by [path.Clean]; [out] holds the
    elements kept so far, the last one first. *)
Definition clean_element (rooted : bool) (out : list gostring) (e : gostring)
  : list gostring :=
  if bool_decide (e = []) || bool_decide (e = lit ".") then out
  else if bool_decide (e = lit "..") then
    match out with
    | top :: rest => if bool_decide (top = lit "..") then e :: out else rest
    | [] => if rooted then out else [e]
    end
  else e :: out.

(** [path.Clean], by its documented rules: multiple slashes become one,
    [.] elements go, an inner [..] goes with the element before it, a
    [..] at the start of a rooted path goes, and the empty result is
    ["."]. *)
Definition Clean (path : gostring) : gostring :=
  match path with
  | [] => lit "."
  | c :: _ =>
    let rooted := bool_decide (c = "/"%char) in
    let out := rev (fold_left (clean_element rooted) (elements_of path) []) in
    let s := (if rooted then lit "/" else []) ++ join_elements out in
    match s with [] => lit "." | _ => s end
  end.

(** [path.Join] *)
Definition Join (elem : list gostring) : gostring :=
  let size := fold_left (fun n e => n + len e) elem 0 in
  if size =? 0 then []
  else
    Clean (fold_left
             (fun buf e =>
                if (0 <? len buf) || negb (bool_decide (e = [])) then
                  (if 0 <? len buf then buf ++ lit "/" else buf) ++ e
                else buf)
             elem []).

Fixpoint LastIndexByte (s : gostring) (c : ascii) : Z :=
  match s with
  | [] => -1
  | x :: s' =>
    let i := LastIndexByte s' c in
    if 0 <=? i then i + 1
    else if bool_decide (x = c) then 0 else -1
  end.

(** [path.Dir] *)
Definition Dir (path : gostring) : gostring :=
  Clean (slice path 0 (LastIndexByte path "/"%char + 1)).

(** ** The file system *)

(** A name leads to a regular file with its bytes or to a directory.
    The name space is keyed by cleaned path names (symbolic links and
    permissions are outside the model: the process may write wherever
    the shape of the tree allows it). *)
Inductive node :=
| File (content : gostring)
| Directory.

(** The working directory, the root and the chain of parents of the
    working directory are directories that are always there. *)
Definition anchored (key : gostring) : bool :=
  bool_decide (key = lit ".") || bool_decide (key = lit "/") ||
  forallb (fun e => bool_decide (e = lit "..")) (elements_of key).

Definition node_at (fs : gmap gostring node) (key : gostring) : option node :=
  if anchored key then Some Directory else fs !! key.

(** [os.Stat].  A name is resolved by its cleaned form; the only
    failure is that the name is not there ([ENOENT]). *)
Definition Stat (fs : gmap gostring node) (name : gostring) : node + error :=
  match name with
  | [] => inr (PathError "stat" name ENOENT)
  | _ =>
    match node_at fs (Clean name) with
    | Some n => inl n
    | None => inr (PathError "stat" name ENOENT)
    end
  end.

(** [os.IsNotExist] *)
Definition IsNotExist (e : error) : bool :=
  match e with
  | PathError _ _ ENOENT => true
  | _ => false
  end.

(** The proper ancestors of a cleaned name, the outermost first. *)
Definition parents (key : gostring) : list gostring :=
  let es := filter (fun e => e <> []) (elements_of key) in
  let root := match key with
              | c :: _ => if bool_decide (c = "/"%char) then lit "/" else []
              | [] => []
              end in
  map (fun k => root ++ join_elements (take k es))
      (seq 1 (length es - 1)).

(** Make each directory of the chain that is not there yet. *)
Fixpoint mkdirs (fs : gmap gostring node) (keys : list gostring)
  : gmap gostring node * option error :=
  match keys with
  | [] => (fs, None)
  | k :: keys' =>
    match node_at fs k with
    | Some Directory => mkdirs fs keys'
    | Some (File _) => (fs, Some (PathError "mkdir" k ENOTDIR))
    | None => mkdirs (<[k := Directory]> fs) keys'
    end
  end.

(** [os.MkdirAll]: nothing to do when the directory is there, an error
    when the name or one of its ancestors is a file, and otherwise the
    missing part of the chain is made. *)
Definition MkdirAll (fs : gmap gostring node) (path : gostring)
  : gmap gostring node * option error :=
  match Stat fs path with
  | inl Directory => (fs, None)
  | inl (File _) => (fs, Some (PathError "mkdir" path ENOTDIR))
  | inr _ => mkdirs fs (parents (Clean path) ++ [Clean path])
  end.

(** [os.WriteFile]: create or truncate, then write.  A write that the
    device refuses (no space, an I/O error) is outside the model. *)
Definition WriteFile (fs : gmap gostring node) (name data : gostring)
  : gmap gostring node * option error :=
  match Stat fs (Dir name) with
  | inl Directory =>
    match Stat fs name with
    | inl Directory => (fs, Some (PathError "open" name EISDIR))
    | _ => (<[Clean name := File data]> fs, None)
    end
  | inl (File _) => (fs, Some (PathError "open" name ENOTDIR))
  | inr _ => (fs, Some (PathError "open" name ENOENT))
  end.

(** [os.OpenFile(name, os.O_APPEND|os.O_WRONLY, perm)]: the handle is
    the key of the file. *)
Definition OpenFile (fs : gmap gostring node) (name : gostring)
  : gostring + error :=
  match Stat fs name with
  | inl (File _) => inl (Clean name)
  | inl Directory => inr (PathError "open" name EISDIR)
  | inr _ => inr (PathError "open" name ENOENT)
  end.

(** [f.WriteString(s)] on a handle opened for appending; as for
    [WriteFile], a write on a file that is there goes through. *)
Definition WriteString (fs : gmap gostring node) (f s : gostring)
  : gmap gostring node * option error :=
  match fs !! f with
  | Some (File old) => (<[f := File (old ++ s)]> fs, None)
  | _ => (fs, Some (PathError "write" f EISDIR))
  end.

(** ** The writer *)

(** What the program acts on besides its input: the file system and the
    lines it has logged. *)
Record World := mkWorld {
  fs : gmap gostring node;
  log : list gostring
}.

Definition Printf (msg : gostring) (w : World) : World :=
  mkWorld (fs w) (log w ++ [msg]).

Definition set_fs (w : World) (fs' : gmap gostring node) : World :=
  mkWorld fs' (log w).

(** The separator put before appended content. *)
Definition separator_for (content : gostring) : gostring :=
  let separator := LF :: lit "---" ++ [LF] in
  if negb (HasSuffix content [LF]) then LF :: separator else separator.

(** [writeOrAppendSpec] *)
Definition writeOrAppendSpec (outputDir source content : gostring) (w : World)
  : World * option error :=
  let destinationFile := Join [outputDir; source] in
  let dir := Dir destinationFile in
  match MkdirAll (fs w) dir with
  | (fs1, Some err) =>
    (set_fs w fs1, Some (Errorf (lit "error creating directory " ++ dir) err))
  | (fs1, None) =>
    let w := set_fs w fs1 in
    match Stat (fs w) destinationFile with
    | inr err =>
      if IsNotExist err then
        let w := Printf (lit "Creating " ++ destinationFile) w in
        match WriteFile (fs w) destinationFile content with
        | (fs2, Some err) =>
          (set_fs w fs2,
           Some (Errorf (lit "error writing new file " ++ destinationFile) err))
        | (fs2, None) => (set_fs w fs2, None)
        end
      else
        (w, Some (Errorf (lit "error checking file " ++ destinationFile) err))
    | inl _ =>
      let w := Printf (lit "Appending to " ++ destinationFile) w in
      match OpenFile (fs w) destinationFile with
      | inr openErr =>
        (w, Some (Errorf (lit "error opening file " ++ destinationFile
                            ++ lit " for appending") openErr))
      | inl f =>
        let separator := separator_for content in
        match WriteString (fs w) f (separator ++ content) with
        | (fs2, Some writeErr) =>
          (set_fs w fs2,
           Some (Errorf (lit "error appending to file " ++ destinationFile)
                        writeErr))
        | (fs2, None) => (set_fs w fs2, None)
        end
      end
    end
  end.

(** ** Standard input and [bufio.Scanner] *)

(** The standard input: the bytes not read yet, and how many bytes the
    next calls of [Read] deliver at most (a pipe hands its data over in
    pieces of any size; when the list is used up a call fills the space
    it is given).  The input ends with [io.EOF]; a read that fails with
    another error is outside the model. *)
Record Reader := mkReader {
  unread : gostring;
  chunks : list Z
}.

(** [os.File.Read] into a slice of [space] bytes: at least one byte when
    there is room and input, [io.EOF] with no byte at the end. *)
Definition Read (r : Reader) (space : Z) : gostring * option error * Reader :=
  if space <=? 0 then ([], None, r)
  else
    match unread r with
    | [] => ([], Some EOF, r)
    | _ =>
      let want := match chunks r with
                  | c :: _ => Z.max 1 c
                  | [] => space
                  end in
      let n := Z.to_nat (Z.min space want) in
      (take n (unread r), None, mkReader (drop n (unread r)) (tail (chunks r)))
    end.

(** The state of a [bufio.Scanner]: [buffered] is [s.buf[s.start:s.end]],
    [buflen] is [len(s.buf)]. *)
Record Scanner := mkScanner {
  r : Reader;
  maxTokenSize : Z;
  tok : option gostring;
  buflen : Z;
  start : Z;
  buffered : gostring;
  err : option error
}.

Definition s_end (s : Scanner) : Z := start s + len (buffered s).

Definition maxInt : Z := 2 ^ 63 - 1.
Definition startBufSize : Z := 4096.

(** [bufio.NewScanner] *)
Definition NewScanner (rd : Reader) : Scanner :=
  mkScanner rd MaxScanTokenSize None 0 0 [] None.

(** [Scanner.Buffer], given [cap(buf)] *)
Definition Buffer (s : Scanner) (cap max : Z) : Scanner :=
  mkScanner (r s) max (tok s) cap (start s) (buffered s) (err s).

Definition setErr (s : Scanner) (e : error) : Scanner :=
  match err s with
  | None | Some EOF =>
    mkScanner (r s) (maxTokenSize s) (tok s) (buflen s) (start s) (buffered s)
              (Some e)
  | Some _ => s
  end.

(** [Scanner.Text] and [Scanner.Err] *)
Definition Text (s : Scanner) : gostring := default [] (tok s).
Definition Err (s : Scanner) : option error :=
  match err s with
  | Some EOF => None
  | e => e
  end.

Inductive step :=
| Return (ok : bool) (s : Scanner)
| Continue (s : Scanner).

Section Scan.

Variable split : gostring -> bool -> Z * option gostring * option error.

(** See if the buffer already holds a token. *)
Definition try_token (s : Scanner) : step :=
  if (start s <? s_end s) || bool_decide (is_Some (err s)) then
    match split (buffered s) (bool_decide (is_Some (err s))) with
    | (_, _, Some e) => Return false (setErr s e)
    | (advance, token, None) =>
      if advance <? 0 then Return false (setErr s ErrNegativeAdvance)
      else if s_end s - start s <? advance then
        Return false (setErr s ErrAdvanceTooFar)
      else
        let s' := mkScanner (r s) (maxTokenSize s) token (buflen s)
                            (start s + advance)
                            (drop (Z.to_nat advance) (buffered s)) (err s) in
        match token with
        | Some _ => Return true s'
        | None => Continue s'
        end
    end
  else Continue s.

(** Shift the data to the start of the buffer, and grow a full buffer;
    [inr] when the buffer is full and may not grow. *)
Definition make_room (s : Scanner) : Scanner + Scanner :=
  let s :=
    if (0 <? start s) &&
       ((s_end s =? buflen s) || (buflen s `quot` 2 <? start s))
    then mkScanner (r s) (maxTokenSize s) (tok s) (buflen s) 0
                   (buffered s) (err s)
    else s in
  if s_end s =? buflen s then
    if (maxTokenSize s <=? buflen s) || (maxInt `quot` 2 <? buflen s) then
      inr (setErr s ErrTooLong)
    else
      let newSize := buflen s * 2 in
      let newSize := if newSize =? 0 then startBufSize else newSize in
      let newSize := Z.min newSize (maxTokenSize s) in
      inl (mkScanner (r s) (maxTokenSize s) (tok s) newSize 0
                     (buffered s) (err s))
  else inl s.

(** Read into the free end of the buffer. *)
Definition fill (s : Scanner) : Scanner :=
  let '(bytes, e, rd) := Read (r s) (buflen s - s_end s) in
  let s' := mkScanner rd (maxTokenSize s) (tok s) (buflen s) (start s)
                      (buffered s ++ bytes) (err s) in
  match e, bytes with
  | Some e, _ => setErr s' e
  | None, [] => setErr s' ErrNoProgress
  | None, _ => s'
  end.

(** The loop of [Scanner.Scan]; each round but the last two reads at
    least one byte, so the bytes not read yet bound the rounds and the
    first case is never reached from [Scan] ([scan_loop_spec] below).
    The count of empty tokens at the end of the input is left out: the
    split function of this program advances whenever it gives a
    token. *)
Fixpoint scan_loop (fuel : nat) (s : Scanner) : bool * Scanner :=
  match fuel with
  | O => (false, setErr s ErrNoProgress)
  | S fuel' =>
    match try_token s with
    | Return ok s' => (ok, s')
    | Continue s =>
      if bool_decide (is_Some (err s)) then
        (false, mkScanner (r s) (maxTokenSize s) (tok s) (buflen s) 0 []
                          (err s))
      else
        match make_room s with
        | inr s' => (false, s')
        | inl s' => scan_loop fuel' (fill s')
        end
    end
  end.

(** [Scanner.Scan] *)
Definition Scan (s : Scanner) : bool * Scanner :=
  scan_loop (S (S (length (unread (r s))))) s.

End Scan.

(** ** The driving loop *)

(** The body of the loop of [processInput] for one token. *)
Definition processRecord (outputDir token : gostring) (w : World)
  : World * option error :=
  let '(source, content) := splitSpec token in
  if bool_decide (source = []) then
    (Printf (lit "Warning: Skipping empty source path in input.") w, None)
  else
    match writeOrAppendSpec outputDir source content w with
    | (w', Some err) =>
      (w', Some (Errorf (lit "failed to process spec for source " ++ source)
                        err))
    | (w', None) => (w', None)
    end.

(** [for scanner.Scan() { ... }] and what follows it; every round takes
    a token off the input, so the bytes left bound the rounds and the
    first case is never reached from [processInput]
    ([processInput_split] below). *)
Fixpoint process_loop (fuel : nat) (outputDir : gostring) (scanner : Scanner)
  (w : World) : World * option error :=
  match fuel with
  | O => (w, Some ErrNoProgress)
  | S fuel' =>
    match Scan scanYamlSpecs scanner with
    | (true, scanner') =>
      match processRecord outputDir (Text scanner') w with
      | (w', Some err) => (w', Some err)
      | (w', None) => process_loop fuel' outputDir scanner' w'
      end
    | (false, scanner') =>
      match Err scanner' with
      | Some err => (w, Some (Errorf (lit "error scanning input stream") err))
      | None => (w, None)
      end
    end
  end.

(** [processInput], with the standard input and the world explicit. *)
Definition processInput (outputDir : gostring) (stdin : Reader) (w : World)
  : World * option error :=
  let scanner := Buffer (NewScanner stdin) MaxScanTokenSize bufferSize in
  match Scan scanYamlSpecs scanner with
  | (false, scanner') =>
    match Err scanner' with
    | Some err => (w, Some (Errorf (lit "error reading initial input") err))
    | None =>
      (Printf
         (lit "Warning: Input stream is empty or contains no separators.") w,
       None)
    end
  | (true, scanner') =>
    process_loop (S (length (buffered scanner' ++ unread (r scanner'))))
                 outputDir scanner' w
  end.

(** ** Setting up the output directory *)

(** [os.RemoveAll] refuses a name that ends with a dot
    ([syscall.EINVAL]). *)
Inductive remove_error :=
| RemoveDot (path : gostring).

Definition endsWithDot (path : gostring) : bool :=
  bool_decide (path = lit ".") || HasSuffix path (lit "/.").

(** A key that is [key] or lies below it. *)
Definition below (key k : gostring) : bool :=
  bool_decide (k = key) ||
  has_prefix k (if HasSuffix key (lit "/") then key else key ++ lit "/").

(** [os.RemoveAll]: the name and all below it go; a name that is not
    there is no error.  This is the call on a name that is not
    anchored: the properties of a forced setup below are stated for
    such names. *)
Definition RemoveAll (fs : gmap gostring node) (path : gostring)
  : gmap gostring node * option remove_error :=
  match path with
  | [] => (fs, None)
  | _ =>
    if endsWithDot path then (fs, Some (RemoveDot path))
    else
      (filter (fun kv : gostring * node => below (Clean path) kv.1 = false) fs,
       None)
  end.

(** The errors of [setupOutputDirectory], one for each [fmt.Errorf] in
    it. *)
Inductive setup_error :=
| NotADirectory (outputDir : gostring)
| AlreadyExists (outputDir : gostring)
| RemoveFailed (outputDir : gostring) (cause : remove_error)
| CheckFailed (outputDir : gostring) (cause : error)
| CreateFailed (outputDir : gostring) (cause : error).

(** The end of [setupOutputDirectory]: the directory is not there (any
    more) and is made. *)
Definition createOutputDirectory (outputDir : gostring) (w : World)
  : World * option setup_error :=
  let w := Printf (lit "Creating output directory " ++ outputDir) w in
  match MkdirAll (fs w) outputDir with
  | (fs1, Some err) => (set_fs w fs1, Some (CreateFailed outputDir err))
  | (fs1, None) => (set_fs w fs1, None)
  end.

(** [setupOutputDirectory] *)
Definition setupOutputDirectory (outputDir : gostring) (force : bool) (w : World)
  : World * option setup_error :=
  match Stat (fs w) outputDir with
  | inl stat =>
    match stat with
    | File _ => (w, Some (NotADirectory outputDir))
    | Directory =>
      if force then
        let w := Printf (lit "Removing existing output directory "
                           ++ outputDir ++ lit " (-f specified)") w in
        match RemoveAll (fs w) outputDir with
        | (fs1, Some err) => (set_fs w fs1, Some (RemoveFailed outputDir err))
        | (fs1, None) => createOutputDirectory outputDir (set_fs w fs1)
        end
      else (w, Some (AlreadyExists outputDir))
    end
  | inr err =>
    if negb (IsNotExist err) then (w, Some (CheckFailed outputDir err))
    else createOutputDirectory outputDir w
  end.

(** ** The program *)

(** The errors of [parseFlagsAndArgs]. *)
Inductive parse_error :=
| WrongArgumentCount
| EmptyOutputDirectory.

(** What [main] writes to the standard error with [fmt.Fprintf], by
    itself or through [flag.Usage].  The lines of the standard logger
    go to the standard error as well; they are the [log] of the
    world. *)
Inductive main_error :=
| ParseFailed (e : parse_error)
| SetupFailed (e : setup_error)
| ProcessFailed (e : error).

Inductive stderr_line :=
| Usage
| ErrorLine (e : main_error).

(** [parseFlagsAndArgs], given what [flag.Parse] leaves: [args] is
    [flag.Args()].  The second component is what [flag.Usage] wrote. *)
Definition parseFlagsAndArgs (args : list gostring)
  : (gostring + parse_error) * list stderr_line :=
  if negb (Z.of_nat (length args) =? 1) then (inr WrongArgumentCount, [Usage])
  else
    let outputDir := default [] (head args) in
    match outputDir with
    | [] => (inr EmptyOutputDirectory, [Usage])
    | _ => (inl outputDir, [])
    end.

(** [main], given the flag [-f] and the arguments [flag.Parse] found:
    the world it leaves (file system and log), the usage and error
    lines it wrote with [fmt.Fprintf], and the exit status. *)
Definition main (force : bool) (args : list gostring) (stdin : Reader)
  (w : World) : World * list stderr_line * Z :=
  match parseFlagsAndArgs args with
  | (inr err, printed) => (w, printed ++ [ErrorLine (ParseFailed err)], 1)
  | (inl outputDirectory, printed) =>
    match setupOutputDirectory outputDirectory force w with
    | (w1, Some err) => (w1, printed ++ [ErrorLine (SetupFailed err)], 1)
    | (w1, None) =>
      match processInput outputDirectory stdin w1 with
      | (w2, Some err) => (w2, printed ++ [ErrorLine (ProcessFailed err)], 1)
      | (w2, None) => (Printf (lit "Processing complete.") w2, printed, 0)
      end
    end
  end.

(** * Specification *)

(** ** The scanner, from the bytes that are left *)

(** What one call of [Scan] does, told from the bytes that are left
    (buffered or still unread) alone. *)
Inductive outcome :=
| Token (t rest : gostring)
| Finished
| TooLong.

Definition next_record (max : Z) (rem : gostring) : outcome :=
  match index_of rem yamlSeparator with
  | Some i =>
    if Z.of_nat i + len yamlSeparator <=? max then
      Token (take i rem) (drop (i + length yamlSeparator) rem)
    else TooLong
  | None =>
    if max <=? len rem then TooLong
    else match rem with
         | [] => Finished
         | _ => Token rem []
         end
  end.

Definition remaining (s : Scanner) : gostring := buffered s ++ unread (r s).

(** The states the scanner of [processInput] goes through. *)
Record scanner_ok (s : Scanner) : Prop := {
  ok_start : 0 <= start s;
  ok_end : s_end s <= buflen s;
  ok_buflen : 0 < buflen s <= maxTokenSize s;
  ok_max : maxTokenSize s <= maxInt `quot` 2;
  ok_err : err s = None \/
           (err s = Some EOF /\ unread (r s) = [] /\
            len (buffered s) < maxTokenSize s)
}.

Definition scan_post (max : Z) (rem : gostring) (res : bool * Scanner) : Prop :=
  match next_record max rem with
  | Token t rest =>
    res.1 = true /\ tok res.2 = Some t /\ remaining res.2 = rest /\
    scanner_ok res.2 /\ maxTokenSize res.2 = max
  | Finished => res.1 = false /\ Err res.2 = None
  | TooLong => res.1 = false /\ Err res.2 = Some ErrTooLong
  end.

(** The rounds the loop of [Scan] needs at most. *)
Definition rounds (s : Scanner) : nat :=
  (length (unread (r s)) + match err s with Some _ => 1 | None => 2 end)%nat.

(** ** The records of a stream *)

(** The tokens a loop [for scanner.Scan() { ... scanner.Text() ... }]
    sees, and [scanner.Err()] after it. *)
Fixpoint scan_all (fuel : nat) (s : Scanner) : list gostring * option error :=
  match fuel with
  | O => ([], Some ErrNoProgress)
  | S fuel' =>
    match Scan scanYamlSpecs s with
    | (true, s') =>
      let '(ts, e) := scan_all fuel' s' in (Text s' :: ts, e)
    | (false, s') => ([], Err s')
    end
  end.

(** The Records the tokenizer of [processInput] yields on an input. *)
Definition records_of (stdin : Reader) : list gostring * option error :=
  scan_all (S (length (unread stdin)))
           (Buffer (NewScanner stdin) MaxScanTokenSize bufferSize).

(** The same, told from the bytes alone. *)
Fixpoint split_stream (max : Z) (fuel : nat) (rem : gostring)
  : list gostring * option error :=
  match fuel with
  | O => ([], Some ErrNoProgress)
  | S fuel' =>
    match next_record max rem with
    | Token t rest =>
      let '(ts, e) := split_stream max fuel' rest in (t :: ts, e)
    | Finished => ([], None)
    | TooLong => ([], Some ErrTooLong)
    end
  end.

(** The Records put together again, the separator between them. *)
Fixpoint join_records (rs : list gostring) : gostring :=
  match rs with
  | [] => []
  | [r] => r
  | r :: rs' => r ++ yamlSeparator ++ join_records rs'
  end.

(** The loop of [processInput] over a list of Records. *)
Fixpoint processRecords (outputDir : gostring) (rs : list gostring) (w : World)
  : World * option error :=
  match rs with
  | [] => (w, None)
  | t :: rs' =>
    match processRecord outputDir t w with
    | (w', Some err) => (w', Some err)
    | (w', None) => processRecords outputDir rs' w'
    end
  end.

(** ... and the check of [scanner.Err()] behind it. *)
Definition run_records (outputDir : gostring)
  (rs : list gostring * option error) (w : World) : World * option error :=
  match processRecords outputDir rs.1 w with
  | (w', Some err) => (w', Some err)
  | (w', None) =>
    match rs.2 with
    | Some err => (w', Some (Errorf (lit "error scanning input stream") err))
    | None => (w', None)
    end
  end.

(** ** Observing the file system *)

(** The bytes of the regular file under a key, if there is one. *)
Definition file_at (fs : gmap gostring node) (key : gostring)
  : option gostring :=
  match fs !! key with
  | Some (File c) => Some c
  | _ => None
  end.

(** From [fs] to [fs'] nothing changed but that directories were made. *)
Definition grows (fs fs' : gmap gostring node) : Prop :=
  forall k, fs' !! k = fs !! k \/ (fs !! k = None /\ fs' !! k = Some Directory).


(** A string that ends with a newline. *)
Definition ends_with_newline (s : gostring) : Prop := exists c, s = c ++ [LF].

(** The YAML document marker on a line of its own. *)
Definition marker : gostring := LF :: lit "---" ++ [LF].

(** A name that is the root or lies below it. *)
Definition inside (root name : gostring) : Prop :=
  Clean name = Clean root \/
  has_prefix (Clean name) (Clean root ++ lit "/") = true.

(** ** Sample inputs *)

(** An output directory with nothing in it, and nothing logged. *)
Definition empty_out : World := mkWorld {[ lit "out" := Directory ]} [].

(** One Record behind a preamble. *)
Definition sample_stream : gostring :=
  lit "preamble" ++ [LF] ++
  yamlSeparator ++ lit "a.yaml" ++ [LF] ++ lit "foo: 1" ++ [LF].

(** Two Records for [a.yaml] with one for another file between them. *)
Definition sample_merge : gostring :=
  lit "preamble" ++ [LF] ++
  yamlSeparator ++ lit "a.yaml" ++ [LF] ++ lit "foo: 1" ++ [LF] ++
  yamlSeparator ++ lit "b/c.yaml" ++ [LF] ++ lit "bar: 2" ++ [LF] ++
  yamlSeparator ++ lit "a.yaml" ++ [LF] ++ lit "baz: 3".





(** Two separators in a row. *)
Definition sample_gap : gostring :=
  lit "preamble" ++ yamlSeparator ++ yamlSeparator ++
  lit "a.yaml" ++ [LF] ++ lit "foo: 1" ++ [LF].

(** ** What a run may do to the file system *)

(** From [fs] to [fs'] no name went away: a directory is still a
    directory, and a regular file still starts with the bytes it
    had. *)
Definition only_appended (fs fs' : gmap gostring node) : Prop :=
  forall k,
    match fs !! k with
    | Some (File old) => exists more, fs' !! k = Some (File (old ++ more))
    | Some Directory => fs' !! k = Some Directory
    | None => True
    end.

(** ** More sample inputs *)

(** One Record, and behind it a stretch without a separator that fills
    the buffer. *)
Definition sample_overlong : gostring :=
  yamlSeparator ++ (lit "a.yaml" ++ [LF] ++ lit "foo" ++ [LF]) ++
  yamlSeparator ++ replicate (Z.to_nat bufferSize) "a"%char.

(** A file system with files below [out]. *)
Definition used_out : World :=
  mkWorld {[ lit "out" := Directory;
             lit "out/a.yaml" := File (lit "foo: 1" ++ [LF]);
             lit "out/b" := Directory;
             lit "out/b/c.yaml" := File (lit "bar: 2" ++ [LF]);
             lit "other.txt" := File (lit "kept") ]} [].

(** The same with nothing below [out]. *)
Definition cleared_out : World :=
  mkWorld {[ lit "out" := Directory;
             lit "other.txt" := File (lit "kept") ]} [].

(** * Verification *)

(** ** Searching in strings *)

Section Searching.

Implicit Types s sep t a b : gostring.

Lemma has_prefix_true s sep :
  has_prefix s sep = true <-> exists t, s = sep ++ t.
Proof.
  revert s. induction sep as [|p sep IH]; intros s; simpl.
  - split; [intros _; by exists s | done].
  - destruct s as [|c s].
    + split; [done | intros [t Ht]; discriminate].
    + rewrite andb_true_iff, bool_decide_eq_true, IH. split.
      * intros [-> [t ->]]. by exists t.
      * intros [t Ht]. injection Ht as -> ->. split; [done | by exists t].
Qed.

Lemma has_prefix_app s sep t :
  has_prefix s sep = true -> has_prefix (s ++ t) sep = true.
Proof.
  rewrite !has_prefix_true. intros [u ->]. exists (u ++ t).
  by rewrite app_assoc.
Qed.

Lemma has_prefix_length s sep :
  has_prefix s sep = true -> (length sep <= length s)%nat.
Proof.
  rewrite has_prefix_true. intros [t ->]. rewrite length_app. lia.
Qed.

Lemma has_prefix_app_long s sep t :
  (length sep <= length s)%nat ->
  has_prefix (s ++ t) sep = has_prefix s sep.
Proof.
  revert s. induction sep as [|p sep IH]; intros s Hlen; [done|].
  destruct s as [|c s]; simpl in *; [lia|].
  rewrite IH by lia. done.
Qed.

Lemma has_prefix_take s sep n :
  (length sep <= n)%nat -> has_prefix (take n s) sep = has_prefix s sep.
Proof.
  intros Hn. destruct (decide (n <= length s)%nat) as [Hle|Hgt].
  - rewrite <- (take_drop n s) at 2.
    rewrite has_prefix_app_long; [done|]. rewrite length_take. lia.
  - rewrite take_ge by lia. done.
Qed.

(** The first occurrence: where it is, and that none is before it. *)
Lemma index_of_Some s sep i :
  index_of s sep = Some i <->
  has_prefix (drop i s) sep = true /\
  forall j, (j < i)%nat -> has_prefix (drop j s) sep = false.
Proof.
  revert i. induction s as [|c s IH]; intros i.
  - simpl. destruct (has_prefix [] sep) eqn:Hp.
    + split.
      * intros [= <-]. split; [done | intros j Hj; lia].
      * intros [_ Hmin]. destruct i as [|i]; [done|].
        specialize (Hmin 0%nat ltac:(lia)). simpl in Hmin. congruence.
    + split; [done|]. intros [Hi _]. rewrite drop_nil in Hi. congruence.
  - cbn [index_of]. destruct (has_prefix (c :: s) sep) eqn:Hp.
    + split.
      * intros [= <-]. split; [done | intros j Hj; lia].
      * intros [_ Hmin]. destruct i as [|i]; [done|].
        specialize (Hmin 0%nat ltac:(lia)). simpl in Hmin. congruence.
    + destruct i as [|i].
      * split.
        -- destruct (index_of s sep); discriminate.
        -- intros [Hi _]. simpl in Hi. congruence.
      * transitivity (index_of s sep = Some i).
        { destruct (index_of s sep); simpl; split; congruence. }
        rewrite IH. simpl. split; intros [Hi Hmin]; (split; [done|]).
        -- intros [|j] Hj; [done|]. simpl. apply Hmin. lia.
        -- intros j Hj. apply (Hmin (S j)). lia.
Qed.

Lemma index_of_bound s sep i :
  index_of s sep = Some i -> (i + length sep <= length s)%nat.
Proof.
  rewrite index_of_Some. intros [Hi Hmin].
  destruct (decide (i <= length s)%nat) as [Hle|Hgt].
  - apply has_prefix_length in Hi. rewrite length_drop in Hi. lia.
  - rewrite drop_ge in Hi by lia.
    apply has_prefix_true in Hi as [t Ht].
    destruct sep; [|discriminate].
    specialize (Hmin 0%nat ltac:(lia)). done.
Qed.

Lemma index_of_split s sep i :
  index_of s sep = Some i ->
  s = take i s ++ sep ++ drop (i + length sep) s.
Proof.
  intros Hi. pose proof (index_of_bound _ _ _ Hi) as Hb.
  apply index_of_Some in Hi as [Hi _].
  apply has_prefix_true in Hi as [t Ht].
  transitivity (take i s ++ drop i s); [by rewrite take_drop|].
  f_equal. rewrite <- drop_drop, Ht.
  by rewrite drop_app_length.
Qed.

(** An occurrence anywhere bounds the first one. *)
Lemma index_of_occurrence a sep b :
  exists i, index_of (a ++ sep ++ b) sep = Some i /\ (i <= length a)%nat.
Proof.
  induction a as [|c a [i [Hi Hle]]].
  - exists 0%nat. split; [|done]. simpl.
    assert (has_prefix (sep ++ b) sep = true) as Hp
      by (apply has_prefix_true; by exists b).
    destruct (sep ++ b); simpl in *; by rewrite Hp.
  - cbn [app index_of]. destruct (has_prefix _ sep).
    + exists 0%nat. split; [done | lia].
    + exists (S i). change (a ++ sep ++ b) with (a ++ sep ++ b) in Hi.
      rewrite Hi. split; [done | simpl; lia].
Qed.

Lemma index_of_None s sep :
  index_of s sep = None <-> forall a b, s <> a ++ sep ++ b.
Proof.
  split.
  - intros Hn a b ->.
    destruct (index_of_occurrence a sep b) as [i [Hi _]]. congruence.
  - intros Hno. destruct (index_of s sep) as [i|] eqn:Hi; [|done].
    apply index_of_split in Hi. by apply Hno in Hi.
Qed.

(** The first occurrence does not move when bytes are added behind. *)
Lemma index_of_app s sep t i :
  index_of s sep = Some i -> index_of (s ++ t) sep = Some i.
Proof.
  intros Hi. pose proof (index_of_bound _ _ _ Hi) as Hb.
  apply index_of_Some in Hi as [Hi Hmin]. apply index_of_Some. split.
  - rewrite drop_app_le by lia. by apply has_prefix_app.
  - intros j Hj. rewrite drop_app_le by lia.
    rewrite has_prefix_app_long; [by apply Hmin|].
    rewrite length_drop. lia.
Qed.

(** Nor when bytes behind it are cut off. *)
Lemma index_of_take s sep n i :
  index_of s sep = Some i -> (i + length sep <= n)%nat ->
  index_of (take n s) sep = Some i.
Proof.
  intros Hi Hn. pose proof (index_of_bound _ _ _ Hi) as Hb.
  apply index_of_Some in Hi as [Hi Hmin].
  destruct (decide (n <= length s)%nat) as [Hle|Hgt];
    [|rewrite take_ge by lia; by apply index_of_Some].
  apply index_of_Some. split.
  - rewrite skipn_firstn_comm, has_prefix_take by lia. done.
  - intros j Hj. rewrite skipn_firstn_comm, has_prefix_take by lia.
    by apply Hmin.
Qed.

(** No occurrence lies before the first one. *)
Lemma index_of_before s sep i :
  index_of s sep = Some i -> sep <> [] ->
  forall a b, take i s <> a ++ sep ++ b.
Proof.
  intros Hi Hne a b Heq.
  assert (length sep <> 0)%nat as Hsep by (destruct sep; simpl; [done|lia]).
  assert (length (take i s) = length a + length sep + length b)%nat as Hlen
    by (rewrite Heq, !length_app; lia).
  rewrite length_take in Hlen.
  pose proof (take_drop i s) as Hs. rewrite Heq in Hs.
  rewrite <- !app_assoc in Hs.
  destruct (index_of_occurrence a sep (b ++ drop i s)) as [j [Hj Hle]].
  rewrite Hs in Hj. rewrite Hi in Hj. injection Hj as <-. lia.
Qed.

End Searching.

(** ** The scanner *)

Section ScannerFacts.

Implicit Types s : Scanner.
Implicit Types data rem u : gostring.

Lemma separator_length : length yamlSeparator = 14%nat.
Proof. reflexivity. Qed.

Lemma separator_not_nil : yamlSeparator <> [].
Proof. discriminate. Qed.

Lemma len_app a b : len (a ++ b) = len a + len b.
Proof. unfold len. rewrite length_app. lia. Qed.

Lemma len_nonneg a : 0 <= len a.
Proof. unfold len. lia. Qed.

Lemma len_zero a : len a = 0 <-> a = [].
Proof. unfold len. destruct a; simpl; split; (done || lia). Qed.

Lemma index_of_nil_separator : index_of [] yamlSeparator = None.
Proof. reflexivity. Qed.

(** *** The split function *)

Lemma scanYamlSpecs_found data atEOF i :
  index_of data yamlSeparator = Some i ->
  scanYamlSpecs data atEOF =
    (Z.of_nat i + 14, Some (take i data), None).
Proof.
  intros Hi. pose proof (index_of_bound _ _ _ Hi) as Hb.
  rewrite separator_length in Hb.
  unfold scanYamlSpecs, Index. rewrite Hi.
  replace (len data =? 0) with false by (unfold len; lia).
  rewrite andb_false_r.
  replace (0 <=? Z.of_nat i) with true by lia.
  unfold slice. rewrite Z.sub_0_r, Nat2Z.id. simpl drop. done.
Qed.

Lemma scanYamlSpecs_more data :
  index_of data yamlSeparator = None ->
  scanYamlSpecs data false = (0, None, None).
Proof. intros Hi. unfold scanYamlSpecs, Index. by rewrite Hi. Qed.

Lemma scanYamlSpecs_final data :
  index_of data yamlSeparator = None -> data <> [] ->
  scanYamlSpecs data true = (len data, Some data, None).
Proof.
  intros Hi Hne. unfold scanYamlSpecs, Index. rewrite Hi.
  assert (len data <> 0) by (by rewrite len_zero).
  replace (len data =? 0) with false by lia. done.
Qed.

Lemma scanYamlSpecs_end : scanYamlSpecs [] true = (0, None, None).
Proof. reflexivity. Qed.

(** *** The bytes that are left decide the outcome *)

Lemma separator_len : len yamlSeparator = 14.
Proof. reflexivity. Qed.

Lemma next_record_found max data u i :
  index_of data yamlSeparator = Some i -> len data <= max ->
  next_record max (data ++ u) =
    Token (take i data) (drop (i + 14) data ++ u).
Proof.
  intros Hi Hmax. pose proof (index_of_bound _ _ _ Hi) as Hb.
  rewrite separator_length in Hb. unfold len in Hmax.
  unfold next_record. rewrite (index_of_app _ _ u _ Hi).
  rewrite separator_len, separator_length.
  destruct (Z.leb_spec (Z.of_nat i + 14) max); [|lia].
  rewrite take_app_le, drop_app_le by lia. done.
Qed.

Lemma next_record_last max rem :
  index_of rem yamlSeparator = None -> len rem < max ->
  next_record max rem =
    match rem with [] => Finished | _ => Token rem [] end.
Proof.
  intros Hi Hmax. unfold next_record. rewrite Hi.
  destruct (Z.leb_spec max (len rem)); [lia | done].
Qed.

Lemma next_record_too_long max data u :
  index_of data yamlSeparator = None -> len data = max ->
  next_record max (data ++ u) = TooLong.
Proof.
  intros Hi Hmax. unfold len in Hmax. unfold next_record.
  destruct (index_of (data ++ u) yamlSeparator) as [i|] eqn:Hiu.
  - rewrite separator_len.
    destruct (Z.leb_spec (Z.of_nat i + 14) max); [|done].
    apply (index_of_take _ _ (length data)) in Hiu;
      [|rewrite separator_length; lia].
    rewrite take_app_length in Hiu. congruence.
  - rewrite len_app. pose proof (len_nonneg u). unfold len in *.
    destruct (Z.leb_spec max (Z.of_nat (length data) + Z.of_nat (length u)));
      [done | lia].
Qed.

End ScannerFacts.

Section ScanLoop.

Implicit Types s : Scanner.

Local Ltac zlia := unfold len in *; cbn [length] in *; lia.

Local Ltac zbool :=
  repeat match goal with
  | |- context [?a <? ?b] => destruct (Z.ltb_spec a b); try zlia
  | |- context [?a <=? ?b] => destruct (Z.leb_spec a b); try zlia
  | |- context [?a =? ?b] => destruct (Z.eqb_spec a b); try zlia
  end.

Lemma try_token_found s i :
  index_of (buffered s) yamlSeparator = Some i ->
  try_token scanYamlSpecs s =
    Return true
      (mkScanner (r s) (maxTokenSize s) (Some (take i (buffered s)))
                 (buflen s) (start s + (Z.of_nat i + 14))
                 (drop (i + 14) (buffered s)) (err s)).
Proof.
  intros Hi. pose proof (index_of_bound _ _ _ Hi) as Hb.
  rewrite separator_length in Hb.
  unfold try_token, s_end, len.
  rewrite (scanYamlSpecs_found _ _ i Hi).
  replace (start s <? start s + Z.of_nat (length (buffered s))) with true
    by lia.
  cbn [orb]. zbool.
  replace (Z.to_nat (Z.of_nat i + 14)) with (i + 14)%nat by lia. done.
Qed.

Lemma try_token_last s :
  err s = Some EOF -> buffered s <> [] ->
  index_of (buffered s) yamlSeparator = None ->
  try_token scanYamlSpecs s =
    Return true
      (mkScanner (r s) (maxTokenSize s) (Some (buffered s)) (buflen s)
                 (start s + len (buffered s)) [] (err s)).
Proof.
  intros He Hne Hi. unfold try_token. rewrite He.
  rewrite bool_decide_eq_true_2 by eauto. rewrite orb_true_r.
  rewrite (scanYamlSpecs_final _ Hi Hne).
  pose proof (len_nonneg (buffered s)). unfold s_end. zbool.
  unfold len. rewrite Nat2Z.id, drop_all. done.
Qed.

Lemma try_token_end s :
  err s = Some EOF -> buffered s = [] ->
  try_token scanYamlSpecs s =
    Continue (mkScanner (r s) (maxTokenSize s) None (buflen s)
                        (start s + 0) [] (err s)).
Proof.
  intros He Hnil. unfold try_token. rewrite He, Hnil.
  rewrite bool_decide_eq_true_2 by eauto. rewrite orb_true_r.
  rewrite scanYamlSpecs_end. unfold s_end. rewrite Hnil. cbn. zbool. done.
Qed.

(** Without a token in the buffer and before the end of the input the
    scanner goes on to read, its data unchanged. *)
Lemma try_token_more s :
  err s = None -> index_of (buffered s) yamlSeparator = None ->
  exists s', try_token scanYamlSpecs s = Continue s' /\
    r s' = r s /\ maxTokenSize s' = maxTokenSize s /\
    buflen s' = buflen s /\ start s' = start s /\
    buffered s' = buffered s /\ err s' = None.
Proof.
  intros He Hi. unfold try_token. rewrite He.
  rewrite bool_decide_eq_false_2 by (intros [? ?]; done).
  rewrite orb_false_r. destruct (start s <? s_end s).
  - rewrite (scanYamlSpecs_more _ Hi). unfold s_end.
    pose proof (len_nonneg (buffered s)). zbool.
    eexists. split; [done|]. cbn. repeat split; (done || lia).
  - exists s. done.
Qed.

(** Making room: the buffer is full at its largest size, or there is
    room for one byte at least. *)
Lemma make_room_spec s :
  scanner_ok s -> err s = None ->
  (exists s', make_room s = inr s' /\ err s' = Some ErrTooLong /\
     len (buffered s) = maxTokenSize s) \/
  (exists s', make_room s = inl s' /\ scanner_ok s' /\ err s' = None /\
     r s' = r s /\ maxTokenSize s' = maxTokenSize s /\
     buffered s' = buffered s /\ s_end s' < buflen s').
Proof.
  intros [Hstart Hend [Hbl1 Hbl2] Hmax _] He.
  unfold make_room.
  set (s1 := if _ : bool then _ else s).
  assert (r s1 = r s /\ maxTokenSize s1 = maxTokenSize s /\
          buflen s1 = buflen s /\ buffered s1 = buffered s /\
          err s1 = None /\ 0 <= start s1 <= start s /\
          (s_end s1 = buflen s1 -> start s1 = 0)) as
      (Hr & Hm & Hb & Hd & He1 & Hs1 & Hfull).
  { subst s1. destruct (_ && _) eqn:Hc; cbn; repeat split; (done || lia). }
  clearbody s1. unfold s_end in *. rewrite Hd, Hb in *.
  destruct (Z.eqb_spec (start s1 + len (buffered s)) (buflen s)) as [Hf|Hf].
  - specialize (Hfull Hf).
    destruct (_ || _) eqn:Hc.
    + left. eexists. split; [done|]. unfold setErr. rewrite He1. cbn.
      split; [done|]. apply orb_true_iff in Hc as [Hc|Hc]; lia.
    + right. apply orb_false_iff in Hc as [Hc1 Hc2].
      rewrite Hm in Hc1.
      eexists. split; [done|]. cbn. rewrite ?Hm, ?Hb, ?Hd, ?Hr, ?He1.
      destruct (Z.eqb_spec (buflen s * 2) 0); [lia|].
      split; [|repeat split; try done; unfold s_end; cbn; rewrite ?Hd; lia].
      constructor; unfold s_end; cbn; try (done || lia).
      by left.
  - right. exists s1. split; [done|].
    split; [|repeat split; try done; unfold s_end; rewrite ?Hd, ?Hb; lia].
    constructor; unfold s_end; rewrite ?Hm, ?Hb, ?Hd; try (done || lia).
    by left.
Qed.

Lemma fill_spec s :
  scanner_ok s -> err s = None -> s_end s < buflen s ->
  scanner_ok (fill s) /\ maxTokenSize (fill s) = maxTokenSize s /\
  remaining (fill s) = remaining s /\ (rounds (fill s) < rounds s)%nat.
Proof.
  intros [Hstart Hend [Hbl1 Hbl2] Hmax _] He Hroom.
  unfold fill, Read, rounds, remaining. rewrite He.
  destruct (Z.leb_spec (buflen s - s_end s) 0) as [|_]; [lia|].
  pose proof (len_nonneg (buffered s)) as Hlen.
  destruct (unread (r s)) as [|c u] eqn:Hu.
  - unfold setErr. cbn. rewrite ?Hu, ?app_nil_r. split_and!; [|done|done|cbn; lia].
    constructor; unfold s_end in *; cbn; try (done || lia).
    right. split_and!; [done|done|lia].
  - set (n := Z.to_nat _).
    assert (1 <= n)%nat as Hn1
      by (subst n; destruct (chunks (r s)); lia).
    assert (Z.of_nat n <= buflen s - s_end s) as Hn2
      by (subst n; destruct (chunks (r s)); lia).
    clearbody n. destruct n as [|n]; [lia|].
    cbn [take]. cbn. rewrite <- app_assoc. cbn.
    rewrite take_drop. split_and!; [|done|done|rewrite length_drop; lia].
    constructor; unfold s_end in *; cbn; try (done || lia); [|by left].
    rewrite len_app.
    assert (length (take n u) <= n)%nat by (rewrite length_take; lia).
    unfold len in *. cbn [length]. lia.
Qed.

(** One call of [Scan], with fuel for its rounds, does what the bytes
    that are left say. *)
Lemma scan_loop_spec fuel s :
  scanner_ok s -> (rounds s <= fuel)%nat ->
  scan_post (maxTokenSize s) (remaining s)
            (scan_loop scanYamlSpecs fuel s).
Proof.
  revert s. induction fuel as [|fuel IH]; intros s Hok Hfuel.
  { unfold rounds in Hfuel. destruct (err s); lia. }
  pose proof Hok as [Hstart Hend [Hbl1 Hbl2] Hmax Herr].
  unfold s_end in Hend. pose proof (len_nonneg (buffered s)) as Hlen.
  cbn [scan_loop].
  destruct (index_of (buffered s) yamlSeparator) as [i|] eqn:Hi.
  - (* a separator is in the buffer *)
    pose proof (index_of_bound _ _ _ Hi) as Hb.
    rewrite separator_length in Hb.
    rewrite (try_token_found _ _ Hi). unfold scan_post, remaining.
    rewrite (next_record_found _ _ _ _ Hi) by lia. cbn.
    split_and!; try done.
    constructor; unfold s_end; cbn; try (done || lia).
    + unfold len in *. rewrite length_drop. lia.
    + destruct Herr as [He|(He & Hu & Hl)]; [by left|right].
      split_and!; try done. unfold len in *. rewrite length_drop. lia.
  - destruct Herr as [He|(He & Hu & Hl)].
    + (* more input is needed *)
      destruct (try_token_more _ He Hi)
        as (s1 & -> & Hr1 & Hm1 & Hb1 & Hs1 & Hd1 & He1).
      rewrite He1. rewrite bool_decide_eq_false_2 by (intros [? ?]; done).
      assert (scanner_ok s1) as Hok1.
      { constructor; unfold s_end; rewrite ?Hm1, ?Hb1, ?Hs1, ?Hd1;
          try (done || lia). by left. }
      destruct (make_room_spec _ Hok1 He1)
        as [(s2 & -> & He2 & Hfull)|
            (s2 & -> & Hok2 & He2 & Hr2 & Hm2 & Hd2 & Hroom)].
      * unfold scan_post, remaining.
        rewrite next_record_too_long by (done || congruence).
        cbn. unfold Err. by rewrite He2.
      * destruct (fill_spec _ Hok2 He2 Hroom) as (Hok3 & Hm3 & Hrem & Hr).
        assert (remaining s2 = remaining s) as Hrem2
          by (unfold remaining; congruence).
        assert (rounds s2 = rounds s) as Hrounds
          by (unfold rounds; by rewrite Hr2, Hr1, He2, He).
        rewrite <- Hrem2, <- Hrem.
        replace (maxTokenSize s) with (maxTokenSize (fill s2)) by congruence.
        apply IH; [done | lia].
    + (* the end of the input was seen *)
      unfold scan_post, remaining. rewrite Hu, app_nil_r.
      rewrite next_record_last by done.
      destruct (buffered s) as [|c data] eqn:Hd.
      * rewrite try_token_end by done. rewrite He.
        rewrite bool_decide_eq_true_2 by eauto. cbn.
        done.
      * rewrite try_token_last by (done || congruence).
        rewrite Hd. cbn. split_and!; try done.
        constructor; unfold s_end; cbn; try (done || lia).
        -- unfold len in *. cbn [length] in *. lia.
        -- right. split_and!; try done. unfold len. cbn. lia.
Qed.

End ScanLoop.

(** ** The driving loop over the records *)

Section Loop.

Implicit Types s : Scanner.
Implicit Types rem t rest : gostring.

Lemma Scan_spec s :
  scanner_ok s ->
  scan_post (maxTokenSize s) (remaining s) (Scan scanYamlSpecs s).
Proof.
  intros Hok. apply scan_loop_spec; [done|].
  unfold rounds. destruct (err s); lia.
Qed.

Lemma initial_scanner_ok stdin :
  scanner_ok (Buffer (NewScanner stdin) MaxScanTokenSize bufferSize).
Proof. constructor; cbn; try (done || lia). by left. Qed.

(** A token takes bytes off the stream. *)
Lemma next_record_shrinks max rem t rest :
  next_record max rem = Token t rest -> (length rest < length rem)%nat.
Proof.
  unfold next_record.
  destruct (index_of _ _) as [i|] eqn:Hi.
  - destruct (_ <=? _); [|done].
    intros [= <- <-]. apply index_of_bound in Hi.
    rewrite separator_length in Hi.
    rewrite ?separator_length, length_drop. lia.
  - destruct (max <=? len rem); [done|].
    destruct rem; [done|]. intros [= <- <-]. cbn. lia.
Qed.

Lemma split_stream_fuel max fuel1 fuel2 rem :
  (length rem < fuel1)%nat -> (length rem < fuel2)%nat ->
  split_stream max fuel1 rem = split_stream max fuel2 rem.
Proof.
  revert fuel2 rem.
  induction fuel1 as [|fuel1 IH]; intros [|fuel2] rem H1 H2; try lia.
  cbn [split_stream].
  destruct (next_record max rem) as [t rest| |] eqn:Hn; [|done..].
  apply next_record_shrinks in Hn.
  rewrite (IH fuel2 rest) by lia. done.
Qed.

Lemma scan_all_split fuel s :
  scanner_ok s -> (length (remaining s) < fuel)%nat ->
  scan_all fuel s = split_stream (maxTokenSize s) fuel (remaining s).
Proof.
  revert s. induction fuel as [|fuel IH]; intros s Hok Hfuel; [lia|].
  cbn [scan_all split_stream].
  pose proof (Scan_spec s Hok) as Hpost. unfold scan_post in Hpost.
  destruct (next_record _ _) as [t rest| |] eqn:Hn;
    destruct (Scan scanYamlSpecs s) as [ok s']; cbn in Hpost.
  - destruct Hpost as (-> & Htok & Hrem & Hok' & Hmax).
    cbn in *. apply next_record_shrinks in Hn.
    rewrite IH by (done || (rewrite Hrem; lia)). rewrite Hrem, Hmax.
    unfold Text. rewrite Htok. done.
  - destruct Hpost as (-> & He). cbn in *. by rewrite He.
  - destruct Hpost as (-> & He). cbn in *. by rewrite He.
Qed.

Lemma process_loop_split fuel outputDir s w :
  scanner_ok s -> (length (remaining s) < fuel)%nat ->
  process_loop fuel outputDir s w =
    run_records outputDir
      (split_stream (maxTokenSize s) fuel (remaining s)) w.
Proof.
  revert s w. induction fuel as [|fuel IH]; intros s w Hok Hfuel; [lia|].
  cbn [process_loop split_stream].
  pose proof (Scan_spec s Hok) as Hpost. unfold scan_post in Hpost.
  destruct (next_record _ _) as [t rest| |] eqn:Hn;
    destruct (Scan scanYamlSpecs s) as [ok s']; cbn in Hpost.
  - destruct Hpost as (-> & Htok & Hrem & Hok' & Hmax).
    cbn in *. apply next_record_shrinks in Hn.
    unfold Text. rewrite Htok. cbn.
    destruct (split_stream _ fuel rest) as [ts e] eqn:Hs.
    unfold run_records. cbn.
    destruct (processRecord outputDir t w) as [w' [err|]]; [done|].
    rewrite IH by (done || (rewrite Hrem; lia)). rewrite Hrem, Hmax, Hs. done.
  - destruct Hpost as (-> & He). cbn in *. by rewrite He.
  - destruct Hpost as (-> & He). cbn in *. by rewrite He.
Qed.

Lemma records_of_split stdin :
  records_of stdin =
    split_stream bufferSize (S (length (unread stdin))) (unread stdin).
Proof.
  unfold records_of. rewrite scan_all_split; [done | | cbn; lia].
  apply initial_scanner_ok.
Qed.

Lemma Scan_initial stdin :
  scan_post bufferSize (unread stdin)
    (Scan scanYamlSpecs
          (Buffer (NewScanner stdin) MaxScanTokenSize bufferSize)).
Proof. exact (Scan_spec _ (initial_scanner_ok stdin)). Qed.

(** [processInput] from the bytes of its input alone: neither the
    sizes of the reads nor the fuel of the loops matter. *)
Lemma processInput_split outputDir stdin w :
  processInput outputDir stdin w =
    match next_record bufferSize (unread stdin) with
    | Token _ rest =>
      run_records outputDir
        (split_stream bufferSize (S (length rest)) rest) w
    | Finished =>
      (Printf
         (lit "Warning: Input stream is empty or contains no separators.")
         w, None)
    | TooLong =>
      (w, Some (Errorf (lit "error reading initial input") ErrTooLong))
    end.
Proof.
  unfold processInput.
  pose proof (Scan_initial stdin) as Hpost.
  unfold scan_post in Hpost.
  destruct (next_record _ _) as [t rest| |] eqn:Hn;
    destruct (Scan scanYamlSpecs _) as [ok s']; cbn [fst snd] in Hpost.
  - destruct Hpost as (-> & Htok & Hrem & Hok' & Hmax).
    rewrite process_loop_split by (done || (unfold remaining; lia)).
    rewrite Hmax. unfold remaining in *. rewrite Hrem. done.
  - destruct Hpost as (-> & He). by rewrite He.
  - destruct Hpost as (-> & He). by rewrite He.
Qed.

(** [processInput] from the Records of its input. *)
Lemma processInput_records outputDir stdin w :
  processInput outputDir stdin w =
    match records_of stdin with
    | ([], Some err) =>
      (w, Some (Errorf (lit "error reading initial input") err))
    | ([], None) =>
      (Printf
         (lit "Warning: Input stream is empty or contains no separators.")
         w, None)
    | (_ :: rs, e) => run_records outputDir (rs, e) w
    end.
Proof.
  rewrite processInput_split, records_of_split.
  change (split_stream bufferSize (S ?n) ?u)
    with (match next_record bufferSize u with
          | Token t rest =>
            let '(ts, e) := split_stream bufferSize n rest in (t :: ts, e)
          | Finished => ([], None)
          | TooLong => ([], Some ErrTooLong)
          end) at 2.
  destruct (next_record _ _) as [t rest| |] eqn:Hn; [|done..].
  apply next_record_shrinks in Hn.
  rewrite (split_stream_fuel _ (length (unread stdin)) (S (length rest)))
    by lia.
  by destruct (split_stream _ _ rest).
Qed.

End Loop.

(** ** The file system and the writer *)

Section Writer.

Implicit Types fs : gmap gostring node.
Implicit Types w : World.
Implicit Types key name dest : gostring.

Lemma grows_refl fs : grows fs fs.
Proof. intros k. by left. Qed.

Lemma grows_trans fs1 fs2 fs3 : grows fs1 fs2 -> grows fs2 fs3 -> grows fs1 fs3.
Proof.
  intros H12 H23 k.
  destruct (H12 k) as [E1|[E1 E1']], (H23 k) as [E2|[E2 E2']].
  - left. congruence.
  - right. split; congruence.
  - right. split; congruence.
  - congruence.
Qed.

Lemma grows_mkdir fs k : node_at fs k = None -> grows fs (<[k := Directory]> fs).
Proof.
  unfold node_at. intros Hk k'. destruct (anchored k); [done|].
  destruct (decide (k = k')) as [<-|Hne].
  - right. by rewrite lookup_insert_eq.
  - left. by rewrite lookup_insert_ne.
Qed.

Lemma grows_file_at fs fs' key : grows fs fs' -> file_at fs' key = file_at fs key.
Proof.
  intros H. unfold file_at. destruct (H key) as [->|[-> ->]]; done.
Qed.

Lemma grows_subseteq fs fs' : grows fs fs' -> fs ⊆ fs'.
Proof.
  intros H. apply map_subseteq_spec. intros k x Hk.
  destruct (H k) as [->|[E _]]; congruence.
Qed.

Lemma mkdirs_grows keys fs fs' e : mkdirs fs keys = (fs', e) -> grows fs fs'.
Proof.
  revert fs. induction keys as [|k keys IH]; intros fs; cbn [mkdirs].
  - intros [= <- _]. apply grows_refl.
  - destruct (node_at fs k) as [[c|]|] eqn:Hk.
    + intros [= <- _]. apply grows_refl.
    + apply IH.
    + intros H. eapply grows_trans; [by apply grows_mkdir | by apply IH].
Qed.

Lemma MkdirAll_grows fs path fs' e : MkdirAll fs path = (fs', e) -> grows fs fs'.
Proof.
  unfold MkdirAll. destruct (Stat fs path) as [[c|]|err].
  - intros [= <- _]. apply grows_refl.
  - intros [= <- _]. apply grows_refl.
  - apply mkdirs_grows.
Qed.

Lemma Clean_not_nil path : Clean path <> [].
Proof.
  unfold Clean. destruct path as [|c path]; [done|].
  destruct (_ ++ _); done.
Qed.

Lemma Join_not_nil outputDir source : source <> [] -> Join [outputDir; source] <> [].
Proof.
  intros Hne. unfold Join. cbn [fold_left].
  assert (0 < len source)
    by (destruct source; [done | unfold len; cbn [length]; lia]).
  pose proof (len_nonneg outputDir).
  destruct (Z.eqb_spec (0 + len outputDir + len source) 0); [lia|].
  apply Clean_not_nil.
Qed.

Lemma Stat_inl fs name n :
  Stat fs name = inl n <-> name <> [] /\ node_at fs (Clean name) = Some n.
Proof.
  unfold Stat. destruct name as [|c name].
  - split; [done | by intros [? _]].
  - destruct (node_at _ _).
    + split; [by intros [= ->] | by intros [_ [= ->]]].
    + split; [done | by intros [_ ?]].
Qed.

Lemma Stat_inr fs name e :
  Stat fs name = inr e ->
  IsNotExist e = true /\ (name = [] \/ node_at fs (Clean name) = None).
Proof.
  unfold Stat. destruct name as [|c name].
  - intros [= <-]. split; [done | by left].
  - destruct (node_at _ _); [done|].
    intros [= <-]. split; [done | by right].
Qed.

Lemma node_at_File fs key c :
  node_at fs key = Some (File c) -> anchored key = false /\ fs !! key = Some (File c).
Proof. unfold node_at. by destruct (anchored key). Qed.

Lemma node_at_None fs key :
  node_at fs key = None -> anchored key = false /\ fs !! key = None.
Proof. unfold node_at. by destruct (anchored key). Qed.


Lemma file_at_insert fs key c : file_at (<[key := File c]> fs) key = Some c.
Proof. unfold file_at. by rewrite lookup_insert_eq. Qed.



(** A failing writer has made directories at most. *)
Lemma writeOrAppendSpec_error_grows outputDir source content w w' e :
  writeOrAppendSpec outputDir source content w = (w', Some e) ->
  grows (fs w) (fs w').
Proof.
  unfold writeOrAppendSpec. intros Hrun.
  destruct (MkdirAll _ _) as [fs1 e1] eqn:Hmk.
  apply MkdirAll_grows in Hmk.
  destruct e1; [by injection Hrun as <- _|].
  cbn [fs set_fs Printf] in Hrun.
  destruct (Stat fs1 _) as [n|err] eqn:Hst.
  - unfold OpenFile in Hrun. rewrite Hst in Hrun.
    destruct n as [old|]; [|by injection Hrun as <- _].
    unfold WriteString in Hrun.
    destruct (fs1 !! _) as [[old'|]|]; [done|..];
      by injection Hrun as <- _.
  - destruct (IsNotExist err); [|by injection Hrun as <- _].
    unfold WriteFile in Hrun.
    destruct (Stat fs1 (Dir _)) as [[?|]|?];
      try (by injection Hrun as <- _).
    rewrite Hst in Hrun. done.
Qed.

End Writer.

(** ** Splitting a Record, and the separator *)

Section Strings.

Implicit Types s token content suffix : gostring.

Lemma HasSuffix_true s suffix :
  HasSuffix s suffix = true <-> exists a, s = a ++ suffix.
Proof.
  unfold HasSuffix, slice_from, len.
  rewrite andb_true_iff, bool_decide_eq_true, Z.leb_le. split.
  - intros [Hlen Hdrop]. exists (take (length s - length suffix) s).
    replace (Z.to_nat (Z.of_nat (length s) - Z.of_nat (length suffix)))
      with (length s - length suffix)%nat in Hdrop by lia.
    transitivity (take (length s - length suffix) s ++
                  drop (length s - length suffix) s);
      [by rewrite take_drop | by rewrite Hdrop].
  - intros [a ->]. rewrite length_app. split; [lia|].
    replace (Z.to_nat _) with (length a) by lia.
    by rewrite drop_app_length.
Qed.

Lemma separator_for_spec content :
  separator_for content =
    if HasSuffix content [LF] then marker else LF :: marker.
Proof. unfold separator_for. by destruct (HasSuffix _ _). Qed.

Lemma separator_for_newline content :
  ends_with_newline content -> separator_for content = marker.
Proof.
  intros H. rewrite separator_for_spec.
  by rewrite (proj2 (HasSuffix_true content [LF]) H).
Qed.

Lemma separator_for_no_newline content :
  ~ ends_with_newline content -> separator_for content = LF :: marker.
Proof.
  intros H. rewrite separator_for_spec.
  destruct (HasSuffix content [LF]) eqn:Hs; [|done].
  by apply HasSuffix_true in Hs.
Qed.

Lemma splitSpec_newline token i :
  index_of token [LF] = Some i ->
  splitSpec token = (take i token, drop (S i) token).
Proof.
  intros Hi. unfold splitSpec, Index, slice, slice_from. rewrite Hi.
  destruct (Z.leb_spec 0 (Z.of_nat i)); [|lia].
  rewrite Z.sub_0_r, Nat2Z.id. cbn [Z.to_nat drop].
  by replace (Z.to_nat (Z.of_nat i + 1)) with (S i) by lia.
Qed.

Lemma splitSpec_no_newline token :
  index_of token [LF] = None -> splitSpec token = (token, []).
Proof. intros Hi. unfold splitSpec, Index. by rewrite Hi. Qed.

Lemma index_of_newline token :
  LF ∈ token -> exists i, index_of token [LF] = Some i.
Proof.
  intros Hin. apply list_elem_of_split in Hin as (a & b & ->).
  destruct (index_of_occurrence a [LF] b) as (i & Hi & _). by exists i.
Qed.

End Strings.

(** ** Claims about the splitter and the writer *)

(** C7 (as amended): for every Record that contains a newline,
    splitting it at its first newline into the source path and the
    content and joining the two with a newline again gives the Record
    back. *)
Theorem splitSpec_rejoin (record : gostring) :
  LF ∈ record ->
  let '(sourcePath, content) := splitSpec record in
  sourcePath ++ [LF] ++ content = record.
Proof.
  intros Hin. destruct (index_of_newline _ Hin) as [i Hi].
  rewrite (splitSpec_newline _ _ Hi).
  pose proof (index_of_split _ _ _ Hi) as Hs. cbn [length] in Hs.
  replace (i + 1)%nat with (S i) in Hs by lia. done.
Qed.

Lemma splitSpec_rejoin_witness :
  LF ∈ lit "a.yaml" ++ LF :: lit "foo: 1" ++ [LF] /\
  let '(sourcePath, content) :=
    splitSpec (lit "a.yaml" ++ LF :: lit "foo: 1" ++ [LF]) in
  sourcePath ++ [LF] ++ content = lit "a.yaml" ++ LF :: lit "foo: 1" ++ [LF].
Proof.
  assert (LF ∈ lit "a.yaml" ++ LF :: lit "foo: 1" ++ [LF]) as Hin
    by (apply elem_of_app; right; apply elem_of_cons; by left).
  split; [exact Hin|].
  exact (splitSpec_rejoin (lit "a.yaml" ++ LF :: lit "foo: 1" ++ [LF]) Hin).
Defined.

(** C7, as it is stated, fails on a Record without a newline: the
    whole Record is the source path, the content is empty, and joining
    them puts a newline behind the Record. *)
Lemma splitSpec_rejoin_counterexample :
  splitSpec (lit "a.yaml") = (lit "a.yaml", []) /\
  lit "a.yaml" ++ [LF] ++ [] <> lit "a.yaml".
Proof. split; [reflexivity | discriminate]. Qed.

Section Append.

Implicit Types w : World.

(** The append case of the writer, in full. *)
Lemma writeOrAppendSpec_append outputDir source content old w :
  Stat (fs w) (Join [outputDir; source]) = inl (File old) ->
  Stat (fs w) (Dir (Join [outputDir; source])) = inl Directory ->
  exists w',
    writeOrAppendSpec outputDir source content w = (w', None) /\
    Stat (fs w') (Join [outputDir; source]) =
      inl (File (old ++ separator_for content ++ content)) /\
    log w' = log w ++ [lit "Appending to " ++ Join [outputDir; source]].
Proof.
  unfold writeOrAppendSpec. generalize (Join [outputDir; source]).
  intros dest Hfile Hdir.
  unfold MkdirAll. rewrite Hdir. cbn [fs set_fs Printf].
  unfold OpenFile. rewrite Hfile.
  apply Stat_inl in Hfile as [Hne Hnode].
  apply node_at_File in Hnode as [Hanch Hold].
  unfold WriteString. rewrite Hold.
  eexists. split; [done|]. cbn [fs log set_fs Printf]. split; [|done].
  apply Stat_inl. split; [done|].
  unfold node_at. rewrite Hanch. by rewrite lookup_insert_eq.
Qed.

End Append.

(** C2: in the append case the separator written before the new content
    is the marker "\n---\n", with one more newline in front exactly when
    the content about to be appended does not end with a newline;
    nothing but the incoming content decides it. *)
Theorem append_separator_by_incoming_content
  (outputDir source content old : gostring) (w : World) :
  Stat (fs w) (Join [outputDir; source]) = inl (File old) ->
  Stat (fs w) (Dir (Join [outputDir; source])) = inl Directory ->
  exists w',
    writeOrAppendSpec outputDir source content w = (w', None) /\
    Stat (fs w') (Join [outputDir; source]) =
      inl (File (old ++ separator_for content ++ content)) /\
    (separator_for content = marker \/ separator_for content = LF :: marker) /\
    (separator_for content = LF :: marker <-> ~ ends_with_newline content).
Proof.
  intros Hfile Hdir.
  destruct (writeOrAppendSpec_append _ _ content _ _ Hfile Hdir)
    as (w' & Hrun & Hst & _).
  exists w'. split_and!; try done.
  - rewrite separator_for_spec. destruct (HasSuffix _ _); [by left | by right].
  - split; [|apply separator_for_no_newline].
    intros Hsep Hnl. rewrite (separator_for_newline _ Hnl) in Hsep.
    discriminate.
Qed.

Lemma append_separator_by_incoming_content_witness :
  let w := mkWorld {[ lit "out" := Directory;
                      lit "out/a.yaml" := File (lit "foo: 1") ]} [] in
  let content := lit "bar: 2" ++ [LF] in
  exists w',
    writeOrAppendSpec (lit "out") (lit "a.yaml") content w = (w', None) /\
    Stat (fs w') (Join [lit "out"; lit "a.yaml"]) =
      inl (File (lit "foo: 1" ++ separator_for content ++ content)) /\
    (separator_for content = marker \/ separator_for content = LF :: marker) /\
    (separator_for content = LF :: marker <-> ~ ends_with_newline content).
Proof.
  cbv zeta.
  apply (append_separator_by_incoming_content
           (lit "out") (lit "a.yaml") (lit "bar: 2" ++ [LF]) (lit "foo: 1")
           (mkWorld {[ lit "out" := Directory;
                       lit "out/a.yaml" := File (lit "foo: 1") ]} []));
    vm_compute; reflexivity.
Defined.

(** C3, as it is stated, fails: the file ends without a newline, the
    new content ends with one, and the marker gets no newline in
    front. *)
Lemma append_marker_counterexample :
  let old := lit "foo: 1" in
  let content := lit "bar: 2" ++ [LF] in
  let w := mkWorld {[ lit "out" := Directory;
                      lit "out/a.yaml" := File old ]} [] in
  ~ ends_with_newline old /\
  exists w',
    writeOrAppendSpec (lit "out") (lit "a.yaml") content w = (w', None) /\
    Stat (fs w') (lit "out/a.yaml") = inl (File (old ++ marker ++ content)) /\
    old ++ marker ++ content <> old ++ (LF :: marker) ++ content.
Proof.
  cbv zeta. split.
  - intros [c Hc]. apply (f_equal (@rev ascii)) in Hc.
    rewrite rev_app_distr in Hc. discriminate.
  - eexists. split; [vm_compute; reflexivity|].
    split; [vm_compute; reflexivity | discriminate].
Qed.

(** C3 (as amended): in the append case the marker written between the
    two documents is "\n---\n", with one more newline in front exactly
    when the newly appended content does not end with a newline,
    whatever the bytes already in the file. *)
Theorem append_marker_by_new_content
  (outputDir source content old : gostring) (w : World) :
  Stat (fs w) (Join [outputDir; source]) = inl (File old) ->
  Stat (fs w) (Dir (Join [outputDir; source])) = inl Directory ->
  exists w',
    writeOrAppendSpec outputDir source content w = (w', None) /\
    (ends_with_newline content ->
     Stat (fs w') (Join [outputDir; source]) =
       inl (File (old ++ marker ++ content))) /\
    (~ ends_with_newline content ->
     Stat (fs w') (Join [outputDir; source]) =
       inl (File (old ++ (LF :: marker) ++ content))).
Proof.
  intros Hfile Hdir.
  destruct (writeOrAppendSpec_append _ _ content _ _ Hfile Hdir)
    as (w' & Hrun & Hst & _).
  exists w'. split_and!; [done| |].
  - intros Hnl. by rewrite <- (separator_for_newline _ Hnl).
  - intros Hnl. by rewrite <- (separator_for_no_newline _ Hnl).
Qed.

Lemma append_marker_by_new_content_witness :
  let w := mkWorld {[ lit "out" := Directory;
                      lit "out/a.yaml" := File (lit "foo: 1" ++ [LF]) ]} [] in
  let content := lit "bar: 2" in
  exists w',
    writeOrAppendSpec (lit "out") (lit "a.yaml") content w = (w', None) /\
    (ends_with_newline content ->
     Stat (fs w') (Join [lit "out"; lit "a.yaml"]) =
       inl (File ((lit "foo: 1" ++ [LF]) ++ marker ++ content))) /\
    (~ ends_with_newline content ->
     Stat (fs w') (Join [lit "out"; lit "a.yaml"]) =
       inl (File ((lit "foo: 1" ++ [LF]) ++ (LF :: marker) ++ content))).
Proof.
  cbv zeta.
  apply (append_marker_by_new_content
           (lit "out") (lit "a.yaml") (lit "bar: 2") (lit "foo: 1" ++ [LF])
           (mkWorld {[ lit "out" := Directory;
                       lit "out/a.yaml" := File (lit "foo: 1" ++ [LF]) ]} []));
    vm_compute; reflexivity.
Defined.

(** C10: the destination is the cleaned join of the output root and the
    source path, and nothing keeps it below the root: a source path
    that starts with "../" names a file outside the root, and the Spec
    is written there. *)
Theorem destination_outside_root :
  let outputDir := lit "out" in
  let source := lit "../evil.yaml" in
  let content := lit "k: v" ++ [LF] in
  let w := mkWorld {[ outputDir := Directory ]} [] in
  Join [outputDir; source] = lit "evil.yaml" /\
  ~ inside outputDir (Join [outputDir; source]) /\
  (exists w',
     writeOrAppendSpec outputDir source content w = (w', None) /\
     Stat (fs w') (lit "evil.yaml") = inl (File content)) /\
  (exists w',
     processInput outputDir
       (mkReader (yamlSeparator ++ source ++ [LF] ++ content) []) w
     = (w', None) /\
     Stat (fs w') (lit "evil.yaml") = inl (File content)).
Proof.
  cbv zeta. split_and!.
  - vm_compute. reflexivity.
  - intros [H|H]; vm_compute in H; discriminate.
  - eexists. split; vm_compute; reflexivity.
  - eexists. split; vm_compute; reflexivity.
Qed.

(** ** The driving loop, Record by Record *)

Section PerRecord.

Implicit Types w : World.
Implicit Types r record key : gostring.
Implicit Types rs : list gostring.

Lemma processRecord_skip outputDir r w :
  (splitSpec r).1 = [] ->
  processRecord outputDir r w =
    (Printf (lit "Warning: Skipping empty source path in input.") w, None).
Proof.
  unfold processRecord. destruct (splitSpec r) as [source content].
  cbn [fst]. intros ->. done.
Qed.

Lemma processRecord_write outputDir r w source content :
  splitSpec r = (source, content) -> source <> [] ->
  processRecord outputDir r w =
    match writeOrAppendSpec outputDir source content w with
    | (w', Some err) =>
      (w', Some (Errorf (lit "failed to process spec for source " ++ source)
                        err))
    | (w', None) => (w', None)
    end.
Proof.
  intros Hs Hne. unfold processRecord. rewrite Hs.
  by rewrite bool_decide_eq_false_2.
Qed.




Lemma processRecords_app outputDir rs1 rs2 w :
  processRecords outputDir (rs1 ++ rs2) w =
    match processRecords outputDir rs1 w with
    | (w1, Some err) => (w1, Some err)
    | (w1, None) => processRecords outputDir rs2 w1
    end.
Proof.
  revert w. induction rs1 as [|r rs1 IH]; intros w; [done|].
  cbn [app processRecords].
  destruct (processRecord outputDir r w) as [w1 [e1|]]; [done|]. apply IH.
Qed.


Lemma run_records_ok outputDir rs e w w' :
  run_records outputDir (rs, e) w = (w', None) ->
  processRecords outputDir rs w = (w', None).
Proof.
  unfold run_records. cbn [fst snd].
  destruct (processRecords outputDir rs w) as [w1 [e1|]]; [done|].
  destruct e; [done|]. done.
Qed.



(** No Record holds the separator, nor does a piece of it. *)
Lemma split_stream_no_separator max fuel rem :
  Forall (fun r => forall a b, r <> a ++ yamlSeparator ++ b)
         (split_stream max fuel rem).1.
Proof.
  revert rem. induction fuel as [|fuel IH]; intros rem; [by constructor|].
  cbn [split_stream]. unfold next_record.
  destruct (index_of rem yamlSeparator) as [i|] eqn:Hi.
  - destruct (_ <=? _); [|by constructor].
    specialize (IH (drop (i + length yamlSeparator) rem)).
    destruct (split_stream _ _ _) as [ts e]. cbn [fst] in *.
    constructor; [|done].
    by apply index_of_before; [|apply separator_not_nil].
  - destruct (max <=? len rem); [by constructor|].
    destruct rem as [|c rem]; [by constructor|].
    specialize (IH []). destruct (split_stream _ _ _) as [ts e].
    cbn [fst] in *. constructor; [|done]. by apply index_of_None.
Qed.

Lemma no_separator_take r n :
  (forall a b, r <> a ++ yamlSeparator ++ b) ->
  forall a b, take n r <> a ++ yamlSeparator ++ b.
Proof.
  intros Hr a b Heq. apply (Hr a (b ++ drop n r)).
  rewrite <- (take_drop n r) at 1. rewrite Heq.
  by rewrite <- !app_assoc.
Qed.

Lemma no_separator_drop r n :
  (forall a b, r <> a ++ yamlSeparator ++ b) ->
  forall a b, drop n r <> a ++ yamlSeparator ++ b.
Proof.
  intros Hr a b Heq. apply (Hr (take n r ++ a) b).
  rewrite <- (take_drop n r) at 1. rewrite Heq.
  by rewrite <- !app_assoc.
Qed.

Lemma split_stream_nil max fuel : (split_stream max fuel []).1 = [].
Proof.
  destruct fuel as [|fuel]; [done|]. cbn [split_stream]. unfold next_record.
  rewrite index_of_nil_separator. by destruct (max <=? len []).
Qed.

(** A stream that is split without an error is its Records with the
    separator between them, and one more separator at the end when the
    stream ends with one. *)
Lemma split_stream_rebuild max fuel rem rs :
  split_stream max fuel rem = (rs, None) ->
  (rs = [] /\ rem = []) \/
  (rs <> [] /\
   (rem = join_records rs \/ rem = join_records rs ++ yamlSeparator)).
Proof.
  revert rem rs. induction fuel as [|fuel IH]; intros rem rs; [done|].
  cbn [split_stream]. unfold next_record.
  destruct (index_of rem yamlSeparator) as [i|] eqn:Hi.
  - destruct (_ <=? _); [|done].
    apply index_of_split in Hi.
    destruct (split_stream max fuel _) as [ts e] eqn:Hs.
    intros [= <- ->]. right. split; [done|].
    destruct (IH _ _ Hs) as [[-> Hrest]|[Hne [Hrest|Hrest]]].
    + right. cbn [join_records]. rewrite Hrest in Hi. by rewrite app_nil_r in Hi.
    + left. rewrite Hrest in Hi. by destruct ts.
    + right. rewrite Hrest in Hi. destruct ts; [done|].
      cbn [join_records] in *. by rewrite <- !app_assoc.
  - destruct (max <=? len rem); [done|].
    destruct rem as [|c rem]; [intros [= <-]; by left|].
    pose proof (split_stream_nil max fuel) as Hnil.
    destruct (split_stream max fuel []) as [ts e]. cbn [fst] in Hnil.
    subst ts. intros [= <- ->]. right. split; [done|]. by left.
Qed.

End PerRecord.

(** ** Claims about a run *)

(** C5: no Record the tokenizer yields holds the separator
    "---\n# Source: ", and so neither does the source path or the
    content of a Spec; the separators of the input are the boundaries:
    a stream that is read to its end is its Records with one separator
    between each two (and one behind the last, when it ends with
    one). *)
Theorem records_hold_no_separator (stdin : Reader) :
  Forall (fun record =>
            (forall a b, record <> a ++ yamlSeparator ++ b) /\
            (forall a b, (splitSpec record).1 <> a ++ yamlSeparator ++ b) /\
            (forall a b, (splitSpec record).2 <> a ++ yamlSeparator ++ b))
         (records_of stdin).1 /\
  ((records_of stdin).2 = None ->
   unread stdin = join_records (records_of stdin).1 \/
   unread stdin = join_records (records_of stdin).1 ++ yamlSeparator).
Proof.
  rewrite records_of_split. split.
  - eapply Forall_impl; [apply split_stream_no_separator|].
    intros record Hr. split; [done|].
    destruct (index_of record [LF]) as [i|] eqn:Hi.
    + rewrite (splitSpec_newline _ _ Hi). cbn [fst snd]. split.
      * by apply no_separator_take.
      * by apply no_separator_drop.
    + rewrite (splitSpec_no_newline _ Hi). cbn [fst snd]. split; [done|].
      intros a b Heq. by destruct a.
  - destruct (split_stream _ _ _) as [rs e] eqn:Hs. cbn [fst snd].
    intros ->. apply split_stream_rebuild in Hs as [[-> ->]|[_ Hs]].
    + by left.
    + done.
Qed.

Lemma records_hold_no_separator_witness :
  (records_of (mkReader sample_merge [5; 1; 64])).2 = None /\
  (unread (mkReader sample_merge [5; 1; 64]) =
     join_records (records_of (mkReader sample_merge [5; 1; 64])).1 \/
   unread (mkReader sample_merge [5; 1; 64]) =
     join_records (records_of (mkReader sample_merge [5; 1; 64])).1
       ++ yamlSeparator).
Proof.
  assert ((records_of (mkReader sample_merge [5; 1; 64])).2 = None) as Hend
    by (vm_compute; reflexivity).
  split; [exact Hend|].
  exact (proj2 (records_hold_no_separator (mkReader sample_merge [5; 1; 64]))
               Hend).
Defined.

(** C4: the bytes before the first separator are written nowhere: a run
    does what it does on the input without them, unless they are too
    many for the buffer and the run fails before it writes anything. *)
Theorem preamble_is_discarded
  (outputDir input : gostring) (chunks chunks' : list Z) (w : World) (i : nat) :
  Index input yamlSeparator = Z.of_nat i ->
  (Z.of_nat i + len yamlSeparator <= bufferSize ->
   processInput outputDir (mkReader input chunks) w =
   processInput outputDir (mkReader (drop i input) chunks') w) /\
  (bufferSize < Z.of_nat i + len yamlSeparator ->
   processInput outputDir (mkReader input chunks) w =
   (w, Some (Errorf (lit "error reading initial input") ErrTooLong))).
Proof.
  unfold Index. destruct (index_of input yamlSeparator) as [j|] eqn:Hj; [|lia].
  intros Hi. apply Nat2Z.inj in Hi as ->.
  rewrite !processInput_split. cbn [unread]. unfold next_record. rewrite Hj.
  split; intros Hmax.
  - destruct (Z.leb_spec (Z.of_nat i + len yamlSeparator) bufferSize); [|lia].
    assert (index_of (drop i input) yamlSeparator = Some 0%nat) as H0.
    { apply index_of_Some in Hj as [Hp _]. apply index_of_Some.
      split; [done | intros j Hlt; lia]. }
    rewrite H0.
    destruct (Z.leb_spec (Z.of_nat 0 + len yamlSeparator) bufferSize);
      [|lia].
    cbn [Nat.add]. rewrite drop_drop. done.
  - destruct (Z.leb_spec (Z.of_nat i + len yamlSeparator) bufferSize);
      [lia | done].
Qed.

Lemma preamble_is_discarded_witness :
  Index sample_stream yamlSeparator = 9 /\
  9 + len yamlSeparator <= bufferSize /\
  processInput (lit "out") (mkReader sample_stream [3; 5]) empty_out =
  processInput (lit "out") (mkReader (drop 9 sample_stream) []) empty_out.
Proof.
  assert (Index sample_stream yamlSeparator = Z.of_nat 9) as Hi
    by (vm_compute; reflexivity).
  assert (Z.of_nat 9 + len yamlSeparator <= bufferSize) as Hlen
    by (vm_compute; discriminate).
  split; [exact Hi|]. split; [exact Hlen|].
  exact (proj1 (preamble_is_discarded (lit "out") sample_stream [3; 5] []
                  empty_out 9 Hi) Hlen).
Defined.

(** C6 (as amended): on an input without a separator and shorter than
    the largest token the run succeeds and writes no file; on the empty
    input it logs the warning. *)
Theorem no_separator_no_files (outputDir : gostring) (stdin : Reader) (w : World) :
  (forall a b, unread stdin <> a ++ yamlSeparator ++ b) ->
  len (unread stdin) < bufferSize ->
  exists w',
    processInput outputDir stdin w = (w', None) /\
    fs w' = fs w /\
    (unread stdin = [] ->
     log w' = log w ++
       [lit "Warning: Input stream is empty or contains no separators."]).
Proof.
  intros Hno Hlen. apply index_of_None in Hno.
  rewrite processInput_split, next_record_last by done.
  destruct (unread stdin) as [|c rest].
  - eexists. split; [done|]. done.
  - exists w. split; [|done]. done.
Qed.

Lemma no_separator_no_files_witness :
  exists w',
    processInput (lit "out") (mkReader [] [7]) empty_out = (w', None) /\
    fs w' = fs empty_out /\
    (unread (mkReader [] [7]) = [] ->
     log w' = log empty_out ++
       [lit "Warning: Input stream is empty or contains no separators."]).
Proof.
  apply (no_separator_no_files (lit "out") (mkReader [] [7]) empty_out).
  - intros a b H. by destruct a.
  - reflexivity.
Defined.

Section TooLong.

(** An input without a separator that fills the buffer makes the run
    fail. *)
Lemma too_long_without_separator outputDir stdin w :
  (forall a b, unread stdin <> a ++ yamlSeparator ++ b) ->
  bufferSize <= len (unread stdin) ->
  processInput outputDir stdin w =
    (w, Some (Errorf (lit "error reading initial input") ErrTooLong)).
Proof.
  intros Hno Hlen. apply index_of_None in Hno.
  rewrite processInput_split. unfold next_record. rewrite Hno.
  destruct (Z.leb_spec bufferSize (len (unread stdin))); [done | lia].
Qed.

(** An input without a separator that is not empty is the first token,
    and the run ends without the warning. *)
Lemma no_separator_no_warning outputDir stdin w :
  (forall a b, unread stdin <> a ++ yamlSeparator ++ b) ->
  len (unread stdin) < bufferSize -> unread stdin <> [] ->
  processInput outputDir stdin w = (w, None).
Proof.
  intros Hno Hlen Hne. apply index_of_None in Hno.
  rewrite processInput_split, next_record_last by done.
  by destruct (unread stdin).
Qed.

Lemma replicate_no_separator n a b :
  replicate n "a"%char <> a ++ yamlSeparator ++ b.
Proof.
  intros Heq.
  assert ("-"%char ∈ replicate n "a"%char) as Hin.
  { rewrite Heq. apply elem_of_app. right. apply elem_of_app. left.
    apply elem_of_cons. by left. }
  apply elem_of_replicate in Hin as [? _]. discriminate.
Qed.

End TooLong.

(** C6, as it is stated, fails twice: an input without a separator
    that is not empty passes without the warning, and one as long as
    the largest token makes the run fail. *)
Lemma no_separator_counterexample :
  processInput (lit "out") (mkReader (lit "no separators here") []) empty_out
    = (empty_out, None) /\
  log empty_out = [] /\
  processInput (lit "out")
    (mkReader (replicate (Z.to_nat bufferSize) "a"%char) []) empty_out
    = (empty_out,
       Some (Errorf (lit "error reading initial input") ErrTooLong)).
Proof.
  split_and!.
  - vm_compute. reflexivity.
  - reflexivity.
  - apply too_long_without_separator.
    + apply replicate_no_separator.
    + cbn [unread]. unfold len. rewrite length_replicate. lia.
Qed.






(** C9: a Record with an empty source path is skipped: it adds the
    warning to the log and nothing to the file system, and the run
    goes on with the Records behind it. *)
Theorem empty_source_path_is_skipped
  (outputDir : gostring) (stdin : Reader) (w w1 : World)
  (pre r : gostring) (rs1 rs2 : list gostring) (e : option error) :
  records_of stdin = (pre :: rs1 ++ r :: rs2, e) ->
  processRecords outputDir rs1 w = (w1, None) ->
  (splitSpec r).1 = [] ->
  let skipped :=
    Printf (lit "Warning: Skipping empty source path in input.") w1 in
  processRecord outputDir r w1 = (skipped, None) /\
  fs skipped = fs w1 /\
  processInput outputDir stdin w = run_records outputDir (rs2, e) skipped.
Proof.
  intros Hrec Hrs1 Hempty skipped. split_and!.
  - by apply processRecord_skip.
  - done.
  - rewrite processInput_records, Hrec. unfold run_records. cbn [fst snd].
    rewrite processRecords_app, Hrs1. cbn [processRecords].
    rewrite processRecord_skip by done. done.
Qed.

Lemma empty_source_path_is_skipped_witness :
  let skipped :=
    Printf (lit "Warning: Skipping empty source path in input.") empty_out in
  (splitSpec []).1 = [] /\
  processRecord (lit "out") [] empty_out = (skipped, None) /\
  fs skipped = fs empty_out /\
  processInput (lit "out") (mkReader sample_gap [2; 30]) empty_out =
    run_records (lit "out")
                ([lit "a.yaml" ++ [LF] ++ lit "foo: 1" ++ [LF]], None) skipped.
Proof.
  cbv zeta. split; [reflexivity|].
  refine (empty_source_path_is_skipped (lit "out") (mkReader sample_gap [2; 30])
            empty_out empty_out (lit "preamble") [] []
            [lit "a.yaml" ++ [LF] ++ lit "foo: 1" ++ [LF]] None _ _ _).
  - vm_compute. reflexivity.
  - reflexivity.
  - reflexivity.
Defined.

(** * Further properties of the code *)

(** ** The splitter and the split function *)

Section SplitterFacts.

Implicit Types token data more t : gostring.

Lemma index_of_newline_None token :
  index_of token [LF] = None <-> LF ∉ token.
Proof.
  rewrite index_of_None. split.
  - intros Hno Hin. apply list_elem_of_split in Hin as (a & b & ->).
    by apply (Hno a b).
  - intros Hnot a b ->. apply Hnot.
    apply elem_of_app. right. apply elem_of_cons. by left.
Qed.

End SplitterFacts.

(** X1: the source path [splitSpec] gives never holds a newline, and
    it is the whole token, with empty content, when the token holds
    none. *)
Theorem splitSpec_path_has_no_newline (token : gostring) :
  (LF ∉ (splitSpec token).1) /\
  (LF ∉ token -> splitSpec token = (token, [])).
Proof.
  split.
  - destruct (index_of token [LF]) as [i|] eqn:Hi.
    + rewrite (splitSpec_newline _ _ Hi). cbn [fst].
      intros Hin. apply list_elem_of_split in Hin as (a & b & Heq).
      by apply (index_of_before _ _ _ Hi ltac:(done) a b).
    + rewrite (splitSpec_no_newline _ Hi). cbn [fst].
      by apply index_of_newline_None.
  - intros Hnot. apply splitSpec_no_newline. by apply index_of_newline_None.
Qed.

Lemma splitSpec_path_has_no_newline_witness :
  (LF ∉ lit "a.yaml") /\ splitSpec (lit "a.yaml") = (lit "a.yaml", []).
Proof.
  assert (LF ∉ lit "a.yaml") as Hnot
    by (apply index_of_newline_None; vm_compute; reflexivity).
  split; [exact Hnot|].
  exact (proj2 (splitSpec_path_has_no_newline (lit "a.yaml")) Hnot).
Defined.

Lemma scanYamlSpecs_within data atEOF :
  (scanYamlSpecs data atEOF).2 = None /\
  0 <= (scanYamlSpecs data atEOF).1.1 <= len data /\
  ((scanYamlSpecs data atEOF).1.2 = None <->
   (scanYamlSpecs data atEOF).1.1 = 0).
Proof.
  destruct (index_of data yamlSeparator) as [i|] eqn:Hi.
  - rewrite (scanYamlSpecs_found _ _ _ Hi).
    pose proof (index_of_bound _ _ _ Hi) as Hb.
    rewrite separator_length in Hb. unfold len. cbn [fst snd].
    split_and!; try (done || lia). split; [done | lia].
  - destruct atEOF.
    + destruct data as [|c data].
      * rewrite scanYamlSpecs_end. cbn. split_and!; done.
      * rewrite scanYamlSpecs_final by done. unfold len.
        cbn [length fst snd]. split_and!; try (done || lia).
    + rewrite (scanYamlSpecs_more _ Hi). pose proof (len_nonneg data).
      cbn [fst snd]. split_and!; try (done || lia).
Qed.

(** X2: [scanYamlSpecs] never fails, never advances outside the data
    it was given, gives a token exactly when it advances, and a token
    it gives is the start of the data and no longer than the
    advance. *)
Theorem scanYamlSpecs_advances_within_data (data : gostring) (atEOF : bool) :
  let '(advance, token, err) := scanYamlSpecs data atEOF in
  err = None /\
  0 <= advance <= len data /\
  (token = None <-> advance = 0) /\
  (forall t, token = Some t ->
             (exists rest, data = t ++ rest) /\ len t <= advance).
Proof.
  destruct (index_of data yamlSeparator) as [i|] eqn:Hi.
  - rewrite (scanYamlSpecs_found _ _ _ Hi).
    pose proof (index_of_bound _ _ _ Hi) as Hb.
    rewrite separator_length in Hb. unfold len.
    split_and!; try (done || lia).
    + split; [done | lia].
    + intros t [= <-]. split.
      * exists (drop i data). by rewrite take_drop.
      * rewrite length_take. lia.
  - destruct atEOF.
    + destruct data as [|c data].
      * rewrite scanYamlSpecs_end. cbn. split_and!; try done.
      * rewrite scanYamlSpecs_final by done. unfold len. cbn [length].
        split_and!; try (done || lia).
        intros t [= <-]. split; [|cbn [length]; lia].
        exists []. by rewrite app_nil_r.
    + rewrite (scanYamlSpecs_more _ Hi). pose proof (len_nonneg data).
      split_and!; try (done || lia).
Qed.

(** X3: a token found before the end of the input, in the data read so
    far, is the token found when more data has come in, with the same
    advance: how much was buffered does not move a boundary. *)
Theorem scanYamlSpecs_stable_under_more_data
  (data more t : gostring) (atEOF : bool) (advance : Z) :
  scanYamlSpecs data false = (advance, Some t, None) ->
  scanYamlSpecs (data ++ more) atEOF = (advance, Some t, None).
Proof.
  destruct (index_of data yamlSeparator) as [i|] eqn:Hi.
  - rewrite (scanYamlSpecs_found _ _ _ Hi). intros [= <- <-].
    pose proof (index_of_bound _ _ _ Hi) as Hb.
    rewrite (scanYamlSpecs_found _ _ _ (index_of_app _ _ more _ Hi)).
    by rewrite take_app_le by lia.
  - by rewrite (scanYamlSpecs_more _ Hi).
Qed.

Lemma scanYamlSpecs_stable_under_more_data_witness :
  scanYamlSpecs (lit "pre" ++ yamlSeparator ++ lit "a.ya") false
    = (17, Some (lit "pre"), None) /\
  scanYamlSpecs ((lit "pre" ++ yamlSeparator ++ lit "a.ya") ++ lit "ml") true
    = (17, Some (lit "pre"), None).
Proof.
  assert (scanYamlSpecs (lit "pre" ++ yamlSeparator ++ lit "a.ya") false
          = (17, Some (lit "pre"), None)) as H by (vm_compute; reflexivity).
  split; [exact H|].
  exact (scanYamlSpecs_stable_under_more_data
           (lit "pre" ++ yamlSeparator ++ lit "a.ya") (lit "ml") (lit "pre")
           true 17 H).
Defined.

(** ** The tokenizer over a whole input *)

Section StreamFacts.

Implicit Types rem : gostring.

(** The Records of one Record with a stretch behind it that holds no
    separator and fills the buffer. *)
Lemma records_of_overlong big chunks :
  index_of big yamlSeparator = None -> bufferSize <= len big ->
  records_of
    (mkReader (yamlSeparator ++ (lit "a.yaml" ++ [LF] ++ lit "foo" ++ [LF])
                 ++ yamlSeparator ++ big) chunks) =
    ([[]; lit "a.yaml" ++ [LF] ++ lit "foo" ++ [LF]], Some ErrTooLong).
Proof.
  intros Hbig Hlen. rewrite records_of_split. cbn [unread].
  change (length (yamlSeparator ++ ?x)) with (14 + length x)%nat.
  change (length ((lit "a.yaml" ++ [LF] ++ lit "foo" ++ [LF]) ++ ?x))
    with (11 + length x)%nat.
  cbn [Nat.add split_stream]. unfold next_record.
  replace (index_of (yamlSeparator ++ (lit "a.yaml" ++ [LF] ++ lit "foo" ++ [LF])
                       ++ yamlSeparator ++ big) yamlSeparator)
    with (Some 0%nat) by (vm_compute; reflexivity).
  replace (Z.of_nat 0 + len yamlSeparator <=? bufferSize) with true
    by (vm_compute; reflexivity).
  replace (drop (0 + length yamlSeparator)
             (yamlSeparator ++ (lit "a.yaml" ++ [LF] ++ lit "foo" ++ [LF])
                ++ yamlSeparator ++ big))
    with ((lit "a.yaml" ++ [LF] ++ lit "foo" ++ [LF]) ++ yamlSeparator ++ big)
    by reflexivity.
  replace (index_of ((lit "a.yaml" ++ [LF] ++ lit "foo" ++ [LF])
                       ++ yamlSeparator ++ big) yamlSeparator)
    with (Some 11%nat) by (vm_compute; reflexivity).
  replace (Z.of_nat 11 + len yamlSeparator <=? bufferSize) with true
    by (vm_compute; reflexivity).
  replace (drop (11 + length yamlSeparator)
             ((lit "a.yaml" ++ [LF] ++ lit "foo" ++ [LF])
                ++ yamlSeparator ++ big))
    with big by reflexivity.
  rewrite Hbig.
  destruct (Z.leb_spec bufferSize (len big)); [|lia].
  reflexivity.
Qed.

Lemma records_of_sample_overlong chunks :
  records_of (mkReader sample_overlong chunks) =
    ([[]; lit "a.yaml" ++ [LF] ++ lit "foo" ++ [LF]], Some ErrTooLong).
Proof.
  unfold sample_overlong. apply records_of_overlong.
  - apply index_of_None, replicate_no_separator.
  - unfold len. rewrite length_replicate. lia.
Qed.

End StreamFacts.

(** X4: the sizes of the reads do not matter: a run, and the Records
    the tokenizer yields, are the same however the input comes in. *)
Theorem reads_do_not_matter
  (outputDir input : gostring) (chunks chunks' : list Z) (w : World) :
  records_of (mkReader input chunks) = records_of (mkReader input chunks') /\
  processInput outputDir (mkReader input chunks) w =
  processInput outputDir (mkReader input chunks') w.
Proof.
  split.
  - by rewrite !records_of_split.
  - by rewrite !processInput_split.
Qed.

(** X5: [scanYamlSpecs] keeps to what the scanner asks of a split
    function.  A step of the scanner over it never fails, whatever
    the state of the scanner, also after a read that failed: there is
    no error from the split function, no negative advance and no
    advance past the buffered data.  A token comes with progress, so
    the scanner never sees an empty token without progress; and a
    step without a token leaves the buffer and the error as they
    were. *)
Theorem split_function_keeps_scanner_contract (s : Scanner) :
  match try_token scanYamlSpecs s with
  | Return ok s' =>
    ok = true /\ is_Some (tok s') /\ err s' = err s /\
    start s < start s' <= s_end s /\ s_end s' = s_end s
  | Continue s' =>
    err s' = err s /\ start s' = start s /\ buffered s' = buffered s
  end.
Proof.
  unfold try_token.
  destruct ((start s <? s_end s) || bool_decide (is_Some (err s))); [|done].
  pose proof (scanYamlSpecs_within (buffered s)
                (bool_decide (is_Some (err s)))) as Hsplit.
  destruct (scanYamlSpecs _ _) as [[advance token] e].
  cbn [fst snd] in Hsplit. destruct Hsplit as (-> & Hadv & Htok).
  assert (s_end s - start s = len (buffered s)) as Hlen
    by (unfold s_end; lia).
  destruct (Z.ltb_spec advance 0); [lia|].
  rewrite Hlen. destruct (Z.ltb_spec (len (buffered s)) advance); [lia|].
  destruct token as [t|].
  - assert (advance <> 0) as Hpos by (intros Hz; by apply Htok in Hz).
    unfold s_end, len in *. cbn [start buffered tok err].
    rewrite length_drop. split_and!; try done; lia.
  - rewrite (proj1 Htok eq_refl). cbn [start buffered tok err drop Z.to_nat].
    split_and!; [done | lia | done].
Qed.

(** X6: when the tokenizer fails behind the first token, the Records it
    gave before are processed and the run then fails with "error
    scanning input stream"; what they wrote stays. *)
Theorem tokenizer_error_after_records
  (outputDir : gostring) (stdin : Reader) (w w1 : World)
  (pre : gostring) (rs : list gostring) (e : error) :
  records_of stdin = (pre :: rs, Some e) ->
  processRecords outputDir rs w = (w1, None) ->
  processInput outputDir stdin w =
    (w1, Some (Errorf (lit "error scanning input stream") e)).
Proof.
  intros Hrec Hrs. rewrite processInput_records, Hrec.
  unfold run_records. cbn [fst snd]. by rewrite Hrs.
Qed.

Lemma tokenizer_error_after_records_witness :
  let w1 := mkWorld {[ lit "out" := Directory;
                       lit "out/a.yaml" := File (lit "foo" ++ [LF]) ]}
                    [lit "Creating out/a.yaml"] in
  records_of (mkReader sample_overlong []) =
    ([[]; lit "a.yaml" ++ [LF] ++ lit "foo" ++ [LF]], Some ErrTooLong) /\
  processInput (lit "out") (mkReader sample_overlong []) empty_out =
    (w1, Some (Errorf (lit "error scanning input stream") ErrTooLong)).
Proof.
  cbv zeta. split; [apply records_of_sample_overlong|].
  refine (tokenizer_error_after_records
            (lit "out") (mkReader sample_overlong []) empty_out _ []
            [lit "a.yaml" ++ [LF] ++ lit "foo" ++ [LF]] ErrTooLong
            (records_of_sample_overlong []) _).
  vm_compute. reflexivity.
Defined.

(** X7: two runs in a row are one run over the Records of both: when
    the first run succeeds, the second goes on from the world it left,
    and its own preamble is dropped like the first. *)
Theorem runs_compose
  (outputDir : gostring) (stdin1 stdin2 stdin12 : Reader) (w w1 : World)
  (pre1 pre2 pre : gostring) (rs1 rs2 : list gostring) (e2 : option error) :
  records_of stdin1 = (pre1 :: rs1, None) ->
  records_of stdin2 = (pre2 :: rs2, e2) ->
  records_of stdin12 = (pre :: rs1 ++ rs2, e2) ->
  processInput outputDir stdin1 w = (w1, None) ->
  processInput outputDir stdin2 w1 = processInput outputDir stdin12 w.
Proof.
  intros H1 H2 H12 Hrun. rewrite processInput_records, H1 in Hrun.
  apply run_records_ok in Hrun.
  rewrite !processInput_records, H2, H12. unfold run_records. cbn [fst snd].
  by rewrite processRecords_app, Hrun.
Qed.

Lemma runs_compose_witness :
  processInput (lit "out") (mkReader sample_stream [])
    (processInput (lit "out") (mkReader sample_stream [4]) empty_out).1
  = processInput (lit "out")
      (mkReader (sample_stream ++ drop 9 sample_stream) [9; 9]) empty_out.
Proof.
  refine (runs_compose (lit "out") (mkReader sample_stream [4])
            (mkReader sample_stream [])
            (mkReader (sample_stream ++ drop 9 sample_stream) [9; 9])
            empty_out _
            (lit "preamble" ++ [LF]) (lit "preamble" ++ [LF])
            (lit "preamble" ++ [LF])
            [lit "a.yaml" ++ [LF] ++ lit "foo: 1" ++ [LF]]
            [lit "a.yaml" ++ [LF] ++ lit "foo: 1" ++ [LF]] None _ _ _ _);
    vm_compute; reflexivity.
Defined.

(** ** The writer *)

Section WriterFacts.

Implicit Types fs : gmap gostring node.
Implicit Types w : World.
Implicit Types key name dest : gostring.

Lemma only_appended_refl fs : only_appended fs fs.
Proof.
  intros k. destruct (fs !! k) as [[old|]|]; [|done..].
  exists []. by rewrite app_nil_r.
Qed.

Lemma only_appended_trans fs1 fs2 fs3 :
  only_appended fs1 fs2 -> only_appended fs2 fs3 -> only_appended fs1 fs3.
Proof.
  intros H12 H23 k. specialize (H12 k). specialize (H23 k).
  destruct (fs1 !! k) as [[old|]|]; [| |done].
  - destruct H12 as [more H12]. rewrite H12 in H23.
    destruct H23 as [more' H23]. exists (more ++ more').
    by rewrite app_assoc.
  - by rewrite H12 in H23.
Qed.

Lemma grows_only_appended fs fs' : grows fs fs' -> only_appended fs fs'.
Proof.
  intros H k. destruct (H k) as [->|[-> _]]; [|done].
  apply only_appended_refl.
Qed.

Lemma only_appended_insert_new fs k n :
  fs !! k = None -> only_appended fs (<[k := n]> fs).
Proof.
  intros Hk k'. destruct (decide (k = k')) as [<-|Hne].
  - by rewrite Hk.
  - rewrite lookup_insert_ne by done. apply only_appended_refl.
Qed.

Lemma only_appended_append fs k old more :
  fs !! k = Some (File old) ->
  only_appended fs (<[k := File (old ++ more)]> fs).
Proof.
  intros Hk k'. destruct (decide (k = k')) as [<-|Hne].
  - rewrite Hk, lookup_insert_eq. by exists more.
  - rewrite lookup_insert_ne by done. apply only_appended_refl.
Qed.

Lemma mkdirs_app fs keys1 keys2 :
  mkdirs fs (keys1 ++ keys2) =
    match mkdirs fs keys1 with
    | (fs1, None) => mkdirs fs1 keys2
    | failed => failed
    end.
Proof.
  revert fs. induction keys1 as [|k keys1 IH]; intros fs; [done|].
  cbn [app mkdirs]. destruct (node_at fs k) as [[c|]|]; [done|apply IH..].
Qed.

Lemma node_at_grows fs fs' key :
  grows fs fs' -> node_at fs key = Some Directory ->
  node_at fs' key = Some Directory.
Proof.
  unfold node_at. intros H. destruct (anchored key); [done|].
  destruct (H key) as [->|[-> ->]]; done.
Qed.

(** A directory [os.MkdirAll] made, or found, is there. *)
Lemma MkdirAll_directory fs path fs' :
  MkdirAll fs path = (fs', None) -> path <> [] ->
  Stat fs' path = inl Directory.
Proof.
  unfold MkdirAll. intros Hmk Hne.
  destruct (Stat fs path) as [[c|]|err] eqn:Hst.
  - done.
  - by injection Hmk as <-.
  - apply Stat_inl. split; [done|].
    rewrite mkdirs_app in Hmk.
    destruct (mkdirs fs (parents (Clean path))) as [fs1 [e1|]]; [done|].
    cbn [mkdirs] in Hmk.
    destruct (node_at fs1 (Clean path)) as [[c|]|] eqn:Hk.
    + done.
    + by injection Hmk as <-.
    + injection Hmk as <-. apply node_at_None in Hk as [Hanch _].
      unfold node_at. rewrite Hanch. by rewrite lookup_insert_eq.
Qed.

(** The three ways a successful call of the writer can have gone. *)
Lemma writeOrAppendSpec_ok_cases outputDir source content w w' :
  writeOrAppendSpec outputDir source content w = (w', None) ->
  source <> [] ->
  let dest := Join [outputDir; source] in
  exists fs1,
    MkdirAll (fs w) (Dir dest) = (fs1, None) /\
    anchored (Clean dest) = false /\
    ((fs1 !! Clean dest = None /\
      w' = mkWorld (<[Clean dest := File content]> fs1)
                   (log w ++ [lit "Creating " ++ dest])) \/
     (exists old,
        fs1 !! Clean dest = Some (File old) /\
        w' = mkWorld (<[Clean dest :=
                          File (old ++ separator_for content ++ content)]> fs1)
                     (log w ++ [lit "Appending to " ++ dest]))).
Proof.
  intros Hrun Hne. cbv zeta.
  pose proof (Join_not_nil outputDir _ Hne) as Hdest.
  unfold writeOrAppendSpec in Hrun.
  revert Hrun Hdest. generalize (Join [outputDir; source]). intros dest.
  intros Hrun Hdest.
  destruct (MkdirAll _ _) as [fs1 e1] eqn:Hmk.
  destruct e1; [done|]. exists fs1. split; [done|].
  cbn [fs log set_fs Printf] in Hrun.
  destruct (Stat fs1 dest) as [n|err] eqn:Hst.
  - unfold OpenFile in Hrun. rewrite Hst in Hrun.
    destruct n as [old|]; [|done].
    apply Stat_inl in Hst as [_ Hn].
    apply node_at_File in Hn as [Hanch Hold].
    unfold WriteString in Hrun. rewrite Hold in Hrun.
    injection Hrun as <-. split; [done|]. right. by exists old.
  - apply Stat_inr in Hst as Hst'. destruct Hst' as [Hex [?|Hnone]]; [done|].
    rewrite Hex in Hrun.
    apply node_at_None in Hnone as [Hanch Hnone].
    unfold WriteFile in Hrun. rewrite Hst in Hrun.
    destruct (Stat fs1 (Dir dest)) as [[?|]|?]; try done.
    injection Hrun as <-. split; [done|]. by left.
Qed.

Lemma Stat_file_at fs name c :
  Stat fs name = inl (File c) <->
  name <> [] /\ anchored (Clean name) = false /\
  file_at fs (Clean name) = Some c.
Proof.
  rewrite Stat_inl. unfold node_at, file_at. split.
  - intros [Hne Hn]. destruct (anchored _); [done|]. by rewrite Hn.
  - intros (Hne & -> & Hf). split; [done|].
    destruct (fs !! Clean name) as [[c'|]|]; [|done..]. by injection Hf as ->.
Qed.

End WriterFacts.

Section WriterRuns.

Implicit Types w : World.

Lemma writeOrAppendSpec_log outputDir source content w w' e :
  writeOrAppendSpec outputDir source content w = (w', e) ->
  log w `prefix_of` log w'.
Proof.
  unfold writeOrAppendSpec. intros Hrun.
  destruct (MkdirAll _ _) as [fs1 e1].
  destruct e1; [injection Hrun as <- _; by exists []; rewrite app_nil_r|].
  cbn [fs log set_fs Printf] in Hrun.
  destruct (Stat fs1 _) as [n|err].
  - destruct (OpenFile _ _); [|injection Hrun as <- _; by eexists].
    destruct (WriteString _ _ _) as [fs2 [?|]];
      injection Hrun as <- _; by eexists.
  - destruct (IsNotExist err);
      [|injection Hrun as <- _; by exists []; rewrite app_nil_r].
    destruct (WriteFile _ _ _) as [fs2 [?|]];
      injection Hrun as <- _; by eexists.
Qed.

Lemma writeOrAppendSpec_only_appended outputDir source content w w' e :
  source <> [] ->
  writeOrAppendSpec outputDir source content w = (w', e) ->
  only_appended (fs w) (fs w').
Proof.
  intros Hne Hrun. destruct e as [e|].
  - by apply grows_only_appended, (writeOrAppendSpec_error_grows _ _ _ _ _ _ Hrun).
  - destruct (writeOrAppendSpec_ok_cases _ _ _ _ _ Hrun Hne)
      as (fs1 & Hmk & _ & [[Hnone ->]|(old & Hold & ->)]);
      apply MkdirAll_grows, grows_only_appended in Hmk;
      (eapply only_appended_trans; [exact Hmk|]); cbn [fs].
    + by apply only_appended_insert_new.
    + by apply only_appended_append.
Qed.

Lemma processRecord_only_appended outputDir r w w' e :
  processRecord outputDir r w = (w', e) ->
  only_appended (fs w) (fs w') /\ log w `prefix_of` log w'.
Proof.
  intros Hrun. destruct (splitSpec r) as [source content] eqn:Hs.
  destruct (decide (source = [])) as [->|Hne].
  - rewrite processRecord_skip in Hrun by (by rewrite Hs).
    injection Hrun as <- _. split; [apply only_appended_refl | by eexists].
  - rewrite (processRecord_write _ _ _ _ _ Hs Hne) in Hrun.
    destruct (writeOrAppendSpec _ _ _ _) as [w1 e1] eqn:Hw.
    assert (w' = w1) as -> by (destruct e1; by injection Hrun as <-).
    split.
    + by apply (writeOrAppendSpec_only_appended _ _ _ _ _ _ Hne Hw).
    + by apply (writeOrAppendSpec_log _ _ _ _ _ _ Hw).
Qed.

Lemma processRecords_only_appended outputDir rs w w' e :
  processRecords outputDir rs w = (w', e) ->
  only_appended (fs w) (fs w') /\ log w `prefix_of` log w'.
Proof.
  revert w. induction rs as [|r rs IH]; intros w Hrun.
  - injection Hrun as <- _. split; [apply only_appended_refl | done].
  - cbn [processRecords] in Hrun.
    destruct (processRecord outputDir r w) as [w1 e1] eqn:Hp.
    apply processRecord_only_appended in Hp as [Hfs Hlog].
    destruct e1.
    + by injection Hrun as <- _.
    + apply IH in Hrun as [Hfs' Hlog']. split.
      * by eapply only_appended_trans.
      * by etrans.
Qed.

End WriterRuns.

(** X8: when the destination is not there before the call and the call
    succeeds, the file holds the content and nothing else. *)
Theorem new_file_holds_the_content
  (outputDir source content : gostring) (w w' : World) :
  source <> [] ->
  (forall n, Stat (fs w) (Join [outputDir; source]) <> inl n) ->
  writeOrAppendSpec outputDir source content w = (w', None) ->
  Stat (fs w') (Join [outputDir; source]) = inl (File content).
Proof.
  intros Hne Hfresh Hrun.
  pose proof (Join_not_nil outputDir _ Hne) as Hdest.
  destruct (writeOrAppendSpec_ok_cases _ _ _ _ _ Hrun Hne)
    as (fs1 & Hmk & Hanch & [[Hnone ->]|(old & Hold & ->)]).
  - apply Stat_file_at. split_and!; [done..|]. cbn [fs].
    apply file_at_insert.
  - exfalso. apply (Hfresh (File old)). apply Stat_file_at.
    split_and!; [done..|].
    apply MkdirAll_grows, (grows_file_at _ _ (Clean (Join [outputDir; source])))
      in Hmk.
    rewrite <- Hmk. unfold file_at. by rewrite Hold.
Qed.

Lemma new_file_holds_the_content_witness :
  exists w',
    writeOrAppendSpec (lit "out") (lit "b/c.yaml") (lit "bar: 2") empty_out
      = (w', None) /\
    Stat (fs w') (Join [lit "out"; lit "b/c.yaml"]) = inl (File (lit "bar: 2")).
Proof.
  destruct (writeOrAppendSpec (lit "out") (lit "b/c.yaml") (lit "bar: 2")
                              empty_out) as [w' e'] eqn:Hrun.
  assert (e' = None) as ->
    by (apply (f_equal snd) in Hrun; vm_compute in Hrun; congruence).
  exists w'. split; [reflexivity|].
  refine (new_file_holds_the_content (lit "out") (lit "b/c.yaml")
            (lit "bar: 2") empty_out w' _ _ Hrun).
  - discriminate.
  - intros n. vm_compute. discriminate.
Defined.

(** X9: a call that succeeds logs one line: "Creating" and the
    destination when no file was there, "Appending to" and the
    destination when one was. *)
Theorem every_write_is_logged
  (outputDir source content : gostring) (w w' : World) :
  source <> [] ->
  writeOrAppendSpec outputDir source content w = (w', None) ->
  let dest := Join [outputDir; source] in
  (file_at (fs w) (Clean dest) = None /\
   log w' = log w ++ [lit "Creating " ++ dest]) \/
  (is_Some (file_at (fs w) (Clean dest)) /\
   log w' = log w ++ [lit "Appending to " ++ dest]).
Proof.
  intros Hne Hrun dest. subst dest.
  destruct (writeOrAppendSpec_ok_cases _ _ _ _ _ Hrun Hne)
    as (fs1 & Hmk & Hanch & Hcases).
  apply MkdirAll_grows,
    (grows_file_at _ _ (Clean (Join [outputDir; source]))) in Hmk.
  rewrite <- Hmk. unfold file_at.
  destruct Hcases as [[Hnone ->]|(old & Hold & ->)].
  - left. by rewrite Hnone.
  - right. rewrite Hold. by split.
Qed.

Lemma every_write_is_logged_witness :
  let w := mkWorld {[ lit "out" := Directory;
                      lit "out/a.yaml" := File (lit "foo: 1") ]} [] in
  exists w',
    writeOrAppendSpec (lit "out") (lit "a.yaml") (lit "bar: 2") w = (w', None)
    /\
    ((file_at (fs w) (Clean (Join [lit "out"; lit "a.yaml"])) = None /\
      log w' = log w ++ [lit "Creating " ++ Join [lit "out"; lit "a.yaml"]]) \/
     (is_Some (file_at (fs w) (Clean (Join [lit "out"; lit "a.yaml"]))) /\
      log w' = log w ++
                 [lit "Appending to " ++ Join [lit "out"; lit "a.yaml"]])).
Proof.
  cbv zeta.
  destruct (writeOrAppendSpec (lit "out") (lit "a.yaml") (lit "bar: 2")
              (mkWorld {[ lit "out" := Directory;
                          lit "out/a.yaml" := File (lit "foo: 1") ]} []))
    as [w' e'] eqn:Hrun.
  assert (e' = None) as ->
    by (apply (f_equal snd) in Hrun; vm_compute in Hrun; congruence).
  exists w'. split; [reflexivity|].
  refine (every_write_is_logged (lit "out") (lit "a.yaml") (lit "bar: 2")
            _ w' _ Hrun).
  discriminate.
Defined.

(** X10: a destination that is a directory is an error: the call logs
    that it appends, fails to open the name, and changes nothing in
    the file system. *)
Theorem directory_destination_is_an_error
  (outputDir source content : gostring) (w : World) :
  let dest := Join [outputDir; source] in
  Stat (fs w) dest = inl Directory ->
  Stat (fs w) (Dir dest) = inl Directory ->
  writeOrAppendSpec outputDir source content w =
    (Printf (lit "Appending to " ++ dest) w,
     Some (Errorf (lit "error opening file " ++ dest ++ lit " for appending")
                  (PathError "open" dest EISDIR))).
Proof.
  cbv zeta. unfold writeOrAppendSpec. generalize (Join [outputDir; source]).
  intros dest Hdir Hparent.
  unfold MkdirAll. rewrite Hparent. cbn [fs set_fs Printf].
  rewrite Hdir. unfold OpenFile. rewrite Hdir. by destruct w.
Qed.

Lemma directory_destination_is_an_error_witness :
  let w := mkWorld {[ lit "out" := Directory; lit "out/a" := Directory ]} [] in
  writeOrAppendSpec (lit "out") (lit "a") (lit "bar: 2") w =
    (Printf (lit "Appending to " ++ Join [lit "out"; lit "a"]) w,
     Some (Errorf (lit "error opening file " ++ Join [lit "out"; lit "a"]
                     ++ lit " for appending")
                  (PathError "open" (Join [lit "out"; lit "a"]) EISDIR))).
Proof.
  cbv zeta.
  apply (directory_destination_is_an_error (lit "out") (lit "a") (lit "bar: 2")
           (mkWorld {[ lit "out" := Directory; lit "out/a" := Directory ]} []));
    vm_compute; reflexivity.
Defined.

(** X11: a call that fails before it writes has changed no file.
    When the error is that of creating the directory, of checking the
    destination or of opening it, every name holds the bytes it held,
    no file is new, and all that was there is still there
    (directories may have been made).  The two errors left out are
    those of the writes themselves. *)
Theorem failure_before_writing_changes_no_file
  (outputDir source content : gostring) (w w' : World) (e cause : error) :
  let dest := Join [outputDir; source] in
  writeOrAppendSpec outputDir source content w = (w', Some e) ->
  e = Errorf (lit "error creating directory " ++ Dir dest) cause \/
  e = Errorf (lit "error checking file " ++ dest) cause \/
  e = Errorf (lit "error opening file " ++ dest ++ lit " for appending")
             cause ->
  (forall key, file_at (fs w') key = file_at (fs w) key) /\
  fs w ⊆ fs w'.
Proof.
  intros dest Hrun Hkind. subst dest.
  assert (grows (fs w) (fs w')) as Hg; [|split].
  - unfold writeOrAppendSpec in Hrun.
    revert Hrun Hkind. generalize (Join [outputDir; source]). intros dest.
    destruct (MkdirAll _ _) as [fs1 e1] eqn:Hmk.
    apply MkdirAll_grows in Hmk.
    destruct e1; [by intros [= <- _]|].
    cbn [fs log set_fs Printf].
    destruct (Stat fs1 dest) as [n|err].
    + destruct (OpenFile fs1 dest) as [f|openErr]; [|by intros [= <- _]].
      destruct (WriteString _ _ _) as [fs2 [writeErr|]]; [|done].
      intros [= _ <-] [H|[H|H]]; discriminate H.
    + destruct (IsNotExist err); [|by intros [= <- _]].
      destruct (WriteFile _ _ _) as [fs2 [writeErr|]]; [|done].
      intros [= _ <-] [H|[H|H]]; discriminate H.
  - intros key. by apply grows_file_at.
  - by apply grows_subseteq.
Qed.

Lemma failure_before_writing_changes_no_file_witness :
  let w := mkWorld {[ lit "out" := Directory;
                      lit "out/a" := File (lit "foo: 1") ]} [] in
  exists w',
    writeOrAppendSpec (lit "out") (lit "a/b/c.yaml") (lit "bar: 2") w
      = (w', Some (Errorf (lit "error creating directory out/a/b")
                          (PathError "mkdir" (lit "out/a") ENOTDIR))) /\
    (forall key, file_at (fs w') key = file_at (fs w) key) /\
    fs w ⊆ fs w'.
Proof.
  cbv zeta.
  exists (writeOrAppendSpec (lit "out") (lit "a/b/c.yaml") (lit "bar: 2")
            (mkWorld {[ lit "out" := Directory;
                        lit "out/a" := File (lit "foo: 1") ]} [])).1.
  assert (writeOrAppendSpec (lit "out") (lit "a/b/c.yaml") (lit "bar: 2")
            (mkWorld {[ lit "out" := Directory;
                        lit "out/a" := File (lit "foo: 1") ]} [])
          = ((writeOrAppendSpec (lit "out") (lit "a/b/c.yaml") (lit "bar: 2")
                (mkWorld {[ lit "out" := Directory;
                            lit "out/a" := File (lit "foo: 1") ]} [])).1,
             Some (Errorf (lit "error creating directory out/a/b")
                          (PathError "mkdir" (lit "out/a") ENOTDIR))))
    as Hrun by (vm_compute; reflexivity).
  split; [exact Hrun|].
  refine (failure_before_writing_changes_no_file
            (lit "out") (lit "a/b/c.yaml") (lit "bar: 2")
            (mkWorld {[ lit "out" := Directory;
                        lit "out/a" := File (lit "foo: 1") ]} [])
            _ _ (PathError "mkdir" (lit "out/a") ENOTDIR) Hrun _).
  left. vm_compute. reflexivity.
Defined.

(** X12: the writer takes nothing away: after a call, failed or not,
    every directory is still a directory, every file still starts
    with the bytes it had, and the log still starts with the lines it
    had. *)
Theorem writer_only_appends
  (outputDir source content : gostring) (w w' : World) (e : option error) :
  source <> [] ->
  writeOrAppendSpec outputDir source content w = (w', e) ->
  only_appended (fs w) (fs w') /\ log w `prefix_of` log w'.
Proof.
  intros Hne Hrun. split.
  - by apply (writeOrAppendSpec_only_appended _ _ _ _ _ _ Hne Hrun).
  - by apply (writeOrAppendSpec_log _ _ _ _ _ _ Hrun).
Qed.

Lemma writer_only_appends_witness :
  let w := mkWorld {[ lit "out" := Directory;
                      lit "out/a.yaml" := File (lit "foo: 1") ]}
                   [lit "Creating out/a.yaml"] in
  let r := writeOrAppendSpec (lit "out") (lit "a.yaml") (lit "bar: 2") w in
  only_appended (fs w) (fs r.1) /\ log w `prefix_of` log r.1.
Proof.
  cbv zeta.
  refine (writer_only_appends (lit "out") (lit "a.yaml") (lit "bar: 2")
            _ _ _ _ (surjective_pairing _)).
  discriminate.
Defined.

(** X13: after a call that succeeds the directory of the destination
    is there. *)
Theorem parent_directory_is_there
  (outputDir source content : gostring) (w w' : World) :
  source <> [] ->
  writeOrAppendSpec outputDir source content w = (w', None) ->
  Stat (fs w') (Dir (Join [outputDir; source])) = inl Directory.
Proof.
  intros Hne Hrun.
  destruct (writeOrAppendSpec_ok_cases _ _ _ _ _ Hrun Hne)
    as (fs1 & Hmk & Hanch & Hcases).
  assert (Dir (Join [outputDir; source]) <> []) as Hdir
    by apply Clean_not_nil.
  apply MkdirAll_directory in Hmk; [|done].
  apply Stat_inl in Hmk as [_ Hnode]. apply Stat_inl. split; [done|].
  unfold node_at in *.
  destruct (anchored (Clean (Dir _))); [done|].
  destruct Hcases as [[Hnone ->]|(old & Hold & ->)]; cbn [fs];
    (rewrite lookup_insert_ne; [done|]); intros Heq; rewrite Heq in *;
    congruence.
Qed.

Lemma parent_directory_is_there_witness :
  exists w',
    writeOrAppendSpec (lit "out") (lit "b/c.yaml") (lit "bar: 2") empty_out
      = (w', None) /\
    Stat (fs w') (Dir (Join [lit "out"; lit "b/c.yaml"])) = inl Directory.
Proof.
  destruct (writeOrAppendSpec (lit "out") (lit "b/c.yaml") (lit "bar: 2")
                              empty_out) as [w' e'] eqn:Hrun.
  assert (e' = None) as ->
    by (apply (f_equal snd) in Hrun; vm_compute in Hrun; congruence).
  exists w'. split; [reflexivity|].
  refine (parent_directory_is_there (lit "out") (lit "b/c.yaml")
            (lit "bar: 2") empty_out w' _ Hrun).
  discriminate.
Defined.

Lemma processInput_only_appended outputDir stdin w :
  only_appended (fs w) (fs (processInput outputDir stdin w).1) /\
  log w `prefix_of` log (processInput outputDir stdin w).1.
Proof.
  rewrite processInput_records.
  destruct (records_of stdin) as [[|pre rs] e].
  - destruct e; cbn [fst fs log Printf];
      (split; [apply only_appended_refl|]); [done | by eexists].
  - unfold run_records. cbn [fst snd].
    destruct (processRecords outputDir rs w) as [w1 e1] eqn:Hrs.
    apply processRecords_only_appended in Hrs.
    destruct e1; [done|]. by destruct e.
Qed.

(** X14: a run takes nothing away, whatever the input and however it
    ends: every directory is still a directory, every file still
    starts with the bytes it had, and the log still starts with the
    lines it had. *)
Theorem run_only_appends (outputDir : gostring) (stdin : Reader) (w : World) :
  only_appended (fs w) (fs (processInput outputDir stdin w).1) /\
  log w `prefix_of` log (processInput outputDir stdin w).1.
Proof. apply processInput_only_appended. Qed.
(** ** The output directory and the program *)

Section Setup.

Lemma anchored_Clean_not_nil name : anchored (Clean name) = false -> name <> [].
Proof. intros H ->. vm_compute in H. discriminate. Qed.

Lemma RemoveAll_lookup fs path fs' k :
  RemoveAll fs path = (fs', None) -> path <> [] ->
  fs' !! k = if below (Clean path) k then None else fs !! k.
Proof.
  unfold RemoveAll. intros H Hne. destruct path as [|c path]; [done|].
  destruct (endsWithDot _); [done|]. injection H as <-.
  destruct (below _ k) eqn:Hb.
  - apply map_lookup_filter_None. right. intros x _ Hp.
    change (below (Clean (c :: path)) k = false) in Hp. congruence.
  - destruct (fs !! k) as [x|] eqn:Hk.
    + apply map_lookup_filter_Some. by split.
    + apply map_lookup_filter_None. by left.
Qed.

Lemma RemoveAll_error fs path fs' e :
  RemoveAll fs path = (fs', Some e) -> fs' = fs.
Proof.
  unfold RemoveAll. destruct path as [|c path]; [done|].
  destruct (endsWithDot _); [|done]. by intros [= <- _].
Qed.

Lemma createOutputDirectory_grows outputDir w w' e :
  createOutputDirectory outputDir w = (w', e) ->
  grows (fs w) (fs w') /\
  log w' = log w ++ [lit "Creating output directory " ++ outputDir].
Proof.
  unfold createOutputDirectory. cbn [Printf fs log].
  destruct (MkdirAll _ _) as [fs1 e1] eqn:Hmk. apply MkdirAll_grows in Hmk.
  destruct e1; intros [= <- _]; by split.
Qed.

Lemma createOutputDirectory_ok outputDir w w' :
  createOutputDirectory outputDir w = (w', None) -> outputDir <> [] ->
  Stat (fs w') outputDir = inl Directory.
Proof.
  unfold createOutputDirectory. cbn [Printf fs log].
  destruct (MkdirAll _ _) as [fs1 e1] eqn:Hmk.
  destruct e1; [done|]. intros [= <-] Hne. cbn [set_fs fs].
  by apply (MkdirAll_directory _ _ _ Hmk).
Qed.

Lemma setupOutputDirectory_grows outputDir w :
  grows (fs w) (fs (setupOutputDirectory outputDir false w).1).
Proof.
  unfold setupOutputDirectory.
  destruct (Stat _ _) as [[c|]|err]; [apply grows_refl..|].
  destruct (negb _); [apply grows_refl|].
  destruct (createOutputDirectory _ _) as [w' e] eqn:Hc.
  by apply createOutputDirectory_grows in Hc as [? _].
Qed.

Lemma setupOutputDirectory_log outputDir force w :
  log w `prefix_of` log (setupOutputDirectory outputDir force w).1.
Proof.
  unfold setupOutputDirectory.
  destruct (Stat _ _) as [[c|]|err]; [done| |].
  - destruct force; [|done]. cbn [Printf fs log].
    destruct (RemoveAll _ _) as [fs1 [e|]]; [by eexists|].
    destruct (createOutputDirectory _ _) as [w' e] eqn:Hc.
    apply createOutputDirectory_grows in Hc as [_ Hlog].
    cbn [fst]. rewrite Hlog. cbn [set_fs Printf log]. rewrite <- app_assoc.
    by eexists.
  - destruct (negb _); [done|].
    destruct (createOutputDirectory _ _) as [w' e] eqn:Hc.
    apply createOutputDirectory_grows in Hc as [_ Hlog].
    cbn [fst]. rewrite Hlog. by eexists.
Qed.

Lemma setupOutputDirectory_directory outputDir force w w' :
  outputDir <> [] ->
  setupOutputDirectory outputDir force w = (w', None) ->
  Stat (fs w') outputDir = inl Directory.
Proof.
  intros Hne Hrun. unfold setupOutputDirectory in Hrun.
  destruct (Stat _ _) as [[c|]|err]; [done| |].
  - destruct force; [|done]. cbn [Printf fs log] in Hrun.
    destruct (RemoveAll _ _) as [fs1 [e|]]; [done|].
    by apply createOutputDirectory_ok in Hrun.
  - destruct (negb _); [done|]. by apply createOutputDirectory_ok in Hrun.
Qed.


Lemma parseFlagsAndArgs_one outputDir :
  outputDir <> [] -> parseFlagsAndArgs [outputDir] = (inl outputDir, []).
Proof. by destruct outputDir. Qed.

End Setup.

(** X15: without [-f] the setup takes nothing away and changes no
    file: all it can do is make directories, and when the name is
    there already it fails and leaves the world as it is. *)
Theorem setup_without_force_removes_nothing
  (outputDir : gostring) (w : World) :
  grows (fs w) (fs (setupOutputDirectory outputDir false w).1) /\
  (forall n, Stat (fs w) outputDir = inl n ->
     exists e, setupOutputDirectory outputDir false w = (w, Some e)).
Proof.
  split; [apply setupOutputDirectory_grows|].
  intros n Hst. unfold setupOutputDirectory. rewrite Hst.
  destruct n; by eexists.
Qed.

(** X16: when the setup succeeds, the output directory is a directory,
    with [-f] or without, whatever was there before. *)
Theorem setup_makes_the_directory
  (outputDir : gostring) (force : bool) (w w' : World) :
  anchored (Clean outputDir) = false ->
  setupOutputDirectory outputDir force w = (w', None) ->
  Stat (fs w') outputDir = inl Directory.
Proof.
  intros Hanch Hrun.
  by apply (setupOutputDirectory_directory _ force w);
    [apply anchored_Clean_not_nil|].
Qed.

Lemma setup_makes_the_directory_witness :
  exists w',
    setupOutputDirectory (lit "out") true used_out = (w', None) /\
    Stat (fs w') (lit "out") = inl Directory.
Proof.
  exists (setupOutputDirectory (lit "out") true used_out).1.
  assert (setupOutputDirectory (lit "out") true used_out
          = ((setupOutputDirectory (lit "out") true used_out).1, None)) as Hrun
    by (vm_compute; reflexivity).
  split; [exact Hrun|].
  exact (setup_makes_the_directory (lit "out") true used_out
           (setupOutputDirectory (lit "out") true used_out).1
           eq_refl Hrun).
Defined.

(** X17: after a successful setup no regular file is at or below the
    output directory, provided that a name that was not there had no
    file below it: with [-f] the old files are gone. *)
Theorem setup_leaves_no_file
  (outputDir : gostring) (force : bool) (w w' : World) (k : gostring) :
  anchored (Clean outputDir) = false ->
  (forall e k', Stat (fs w) outputDir = inr e ->
     below (Clean outputDir) k' = true -> file_at (fs w) k' = None) ->
  setupOutputDirectory outputDir force w = (w', None) ->
  below (Clean outputDir) k = true ->
  file_at (fs w') k = None.
Proof.
  intros Hanch Hwf Hrun Hk. apply anchored_Clean_not_nil in Hanch as Hne.
  unfold setupOutputDirectory in Hrun.
  destruct (Stat _ _) as [[c|]|err]; [done| |].
  - destruct force; [|done]. cbn [Printf fs log] in Hrun.
    destruct (RemoveAll _ _) as [fs1 [e|]] eqn:Hrm; [done|].
    apply createOutputDirectory_grows in Hrun as [Hg _].
    rewrite (grows_file_at _ _ k Hg). cbn [set_fs fs]. unfold file_at.
    rewrite (RemoveAll_lookup _ _ _ k Hrm Hne). by rewrite Hk.
  - destruct (negb _); [done|].
    apply createOutputDirectory_grows in Hrun as [Hg _].
    rewrite (grows_file_at _ _ k Hg). by apply (Hwf err).
Qed.

Lemma setup_leaves_no_file_witness :
  file_at (fs used_out) (lit "out/b/c.yaml") = Some (lit "bar: 2" ++ [LF]) /\
  file_at (fs (setupOutputDirectory (lit "out") true used_out).1)
    (lit "out/b/c.yaml") = None.
Proof.
  split; [reflexivity|].
  refine (setup_leaves_no_file (lit "out") true used_out
            (setupOutputDirectory (lit "out") true used_out).1
            (lit "out/b/c.yaml") eq_refl _ _ eq_refl).
  - intros e k' Hst. vm_compute in Hst. discriminate.
  - vm_compute. reflexivity.
Defined.

(** X18: the setup leaves alone what is not at or below the output
    directory, with [-f] or without and however it ends: such a name
    keeps what it led to, or it was not there and is a directory now. *)
Theorem setup_leaves_the_rest_alone
  (outputDir : gostring) (force : bool) (w : World) (k : gostring) :
  anchored (Clean outputDir) = false ->
  below (Clean outputDir) k = false ->
  let fs' := fs (setupOutputDirectory outputDir force w).1 in
  fs' !! k = fs w !! k \/ (fs w !! k = None /\ fs' !! k = Some Directory).
Proof.
  intros Hanch Hk fs'. subst fs'. apply anchored_Clean_not_nil in Hanch as Hne.
  destruct force; [|apply setupOutputDirectory_grows].
  unfold setupOutputDirectory.
  destruct (Stat _ _) as [[c|]|err]; [by left| |].
  - cbn [Printf fs log].
    destruct (RemoveAll _ _) as [fs1 [e|]] eqn:Hrm.
    + apply RemoveAll_error in Hrm as ->. by left.
    + pose proof (RemoveAll_lookup _ _ _ k Hrm Hne) as Hl.
      rewrite Hk in Hl.
      destruct (createOutputDirectory _ _) as [w' e] eqn:Hc.
      apply createOutputDirectory_grows in Hc as [Hg _].
      cbn [set_fs fs] in Hg. cbn [fst]. rewrite <- Hl. apply Hg.
  - destruct (negb _); [by left|].
    destruct (createOutputDirectory _ _) as [w' e] eqn:Hc.
    apply createOutputDirectory_grows in Hc as [Hg _]. apply Hg.
Qed.

Lemma setup_leaves_the_rest_alone_witness :
  fs (setupOutputDirectory (lit "out") true used_out).1 !! lit "other.txt"
  = Some (File (lit "kept")).
Proof.
  destruct (setup_leaves_the_rest_alone (lit "out") true used_out
              (lit "other.txt") eq_refl eq_refl) as [H|[H _]].
  - exact H.
  - vm_compute in H. discriminate.
Defined.

(** X19: with [-f], what was at or below the output directory before
    has no influence on the program: when the setup succeeds in one
    world, the program does the same in every world that differs from
    it at or below the output directory only. *)
Theorem forced_run_forgets_the_old_tree
  (outputDir : gostring) (stdin : Reader) (w1 w2 : World) :
  anchored (Clean outputDir) = false ->
  Stat (fs w1) outputDir = inl Directory ->
  Stat (fs w2) outputDir = inl Directory ->
  (forall k, below (Clean outputDir) k = false -> fs w1 !! k = fs w2 !! k) ->
  log w1 = log w2 ->
  (setupOutputDirectory outputDir true w1).2 = None ->
  main true [outputDir] stdin w1 = main true [outputDir] stdin w2.
Proof.
  intros Hanch H1 H2 Hout Hlog Hok.
  assert (setupOutputDirectory outputDir true w1
          = setupOutputDirectory outputDir true w2) as Hsetup.
  { revert Hok. unfold setupOutputDirectory. rewrite H1, H2.
    unfold set_fs, Printf. cbn [fs log]. rewrite Hlog.
    assert (forall e, RemoveAll (fs w1) outputDir = (fs w1, Some e) ->
              RemoveAll (fs w2) outputDir = (fs w2, Some e)) as Herr.
    { unfold RemoveAll. destruct outputDir as [|c d]; [done|].
      destruct (endsWithDot _); [|done]. by intros e [= <-]. }
    assert (forall fs1, RemoveAll (fs w1) outputDir = (fs1, None) ->
              RemoveAll (fs w2) outputDir = (fs1, None)) as Hrm.
    { unfold RemoveAll. destruct outputDir as [|c d]; [done|].
      destruct (endsWithDot _); [done|]. intros fs1 [= <-]. f_equal.
      apply map_eq. intros k.
      destruct (below (Clean (c :: d)) k) eqn:Hb.
      - transitivity (@None node); [|symmetry];
          apply map_lookup_filter_None; right; intros x _ Hp;
          change (below (Clean (c :: d)) k = false) in Hp; congruence.
      - rewrite !map_lookup_filter, (Hout k Hb). done. }
    destruct (RemoveAll (fs w1) outputDir) as [fs1 [e|]] eqn:Hr1; [done|].
    by rewrite (Hrm fs1 eq_refl). }
  unfold main.
  rewrite (parseFlagsAndArgs_one _ (anchored_Clean_not_nil _ Hanch)).
  by rewrite Hsetup.
Qed.

Lemma forced_run_forgets_the_old_tree_witness :
  main true [lit "out"] (mkReader sample_stream []) used_out
  = main true [lit "out"] (mkReader sample_stream []) cleared_out.
Proof.
  refine (forced_run_forgets_the_old_tree (lit "out")
            (mkReader sample_stream []) used_out cleared_out
            eq_refl eq_refl eq_refl _ eq_refl eq_refl).
  intros k Hk. unfold used_out, cleared_out. cbn [fs].
  destruct (decide (k = lit "out")) as [->|Hne].
  - by rewrite !lookup_insert_eq.
  - rewrite !(lookup_insert_ne _ (lit "out")) by done.
    rewrite !lookup_insert_ne
      by (intros <-; vm_compute in Hk; discriminate).
    reflexivity.
Defined.



(** X21: without [-f] the program takes nothing away, whatever its
    arguments and its input and however it ends: every directory is
    still a directory, every file still starts with the bytes it had,
    and the log still starts with the lines it had. *)
Theorem program_without_force_only_appends
  (args : list gostring) (stdin : Reader) (w : World) :
  only_appended (fs w) (fs (main false args stdin w).1.1) /\
  log w `prefix_of` log (main false args stdin w).1.1.
Proof.
  unfold main.
  destruct (parseFlagsAndArgs args) as [[outputDir|e] printed];
    [|split; [apply only_appended_refl | done]].
  pose proof (setupOutputDirectory_grows outputDir w) as Hg.
  pose proof (setupOutputDirectory_log outputDir false w) as Hl.
  destruct (setupOutputDirectory _ _ _) as [w1 e1]. cbn [fst] in Hg, Hl.
  apply grows_only_appended in Hg.
  destruct e1; [done|].
  pose proof (processInput_only_appended outputDir stdin w1) as [Hfs Hlog].
  destruct (processInput _ _ _) as [w2 e2]. cbn [fst] in Hfs, Hlog.
  assert (only_appended (fs w) (fs w2))
    by (by apply (only_appended_trans _ (fs w1))).
  assert (log w `prefix_of` log w2) by (by etrans).
  destruct e2; [done|]. cbn [fst Printf fs log]. split; [done|].
  etrans; [eassumption|]. by apply prefix_app_r.
Qed.
